(** * Adsorption-site recognition on a nanoparticle surface

    A shallow embedding of the site-recognition notebook
    (notebooks/site_recongnition.ipynb): the surface partition
    [get_surface_neighbors] and the three enumerations
    [get_brige_site_indices], [get_hollow_site_indices] and
    [get_four_fold_hollow_site], followed by the properties that the
    specification states about them.

    Conventions of the embedding.
    - Atom indices are [nat]; coordination numbers are [Z].
    - [system.neighbor_dict] is a finite map from an atom index to the
      sequence of its neighbours, in the order in which Python iterates it.
      A lookup of an absent key raises [KeyError]: it is [None] here.
    - The two dictionaries built by [get_surface_neighbors] are Python
      dictionaries, which iterate in insertion order: they are association
      lists, since [get_brige_site_indices] walks [.items()] in that order.
    - A Python exception is [None] in the [option] monad. *)

From Stdlib Require Import ZArith Lia.
From stdpp Require Import base option list sorting gmap strings.

Local Open Scope nat_scope.
Local Set Warnings "-clear-no-such-hyp".

(** ** Data *)

(** A site is a Python list of atom indices. *)
Abbreviation site := (list nat).

(** An insertion-ordered dictionary from an atom index to a list of atoms. *)
Abbreviation dict := (list (nat * list nat)).

(** [d[k]]; [None] stands for [KeyError]. *)
Fixpoint dict_get (d : dict) (k : nat) : option (list nat) :=
  match d with
  | [] => None
  | (k', v) :: d' => if decide (k' = k) then Some v else dict_get d' k
  end.

(** [d[k].append(x)]: the list stored under [k] grows at its end, the
    order of the keys is unchanged. *)
Fixpoint dict_append (d : dict) (k x : nat) : option dict :=
  match d with
  | [] => None
  | (k', v) :: d' =>
      if decide (k' = k) then Some ((k', v ++ [x]) :: d')
      else d'' ← dict_append d' k x; Some ((k', v) :: d'')
  end.

Definition keys (d : dict) : list nat := d.*1.

(** ** Control: a [for] loop whose body may raise *)

Fixpoint for_each {A S : Type} (body : S → A → option S) (l : list A) (s : S)
  : option S :=
  match l with
  | [] => Some s
  | x :: l' => s' ← body s x; for_each body l' s'
  end.

(** ** Library functions used by the notebook *)

(** Python's [sorted] on a list of integers. *)
Definition sorted (l : list nat) : list nat := merge_sort (≤) l.

(** [np.unique]: the sorted distinct values. *)
Definition unique (l : list nat) : list nat := sorted (remove_dups l).

(** [np.intersect1d(x, y)]: the sorted, distinct values that are in both. *)
Definition intersect1d (x y : list nat) : list nat :=
  filter (λ v, v ∈ y) (unique x).

(** [np.where(coordination_list < 12)[0]]: the positions, in increasing
    order, whose coordination number is below 12. *)
Definition is_surface (coordination_list : list Z) (i : nat) : Prop :=
  ∃ c, coordination_list !! i = Some c ∧ (c < 12)%Z.

Global Instance is_surface_dec cl i : Decision (is_surface cl i).
Proof.
  unfold is_surface. destruct (cl !! i) as [c|] eqn:E.
  - destruct (decide (c < 12)%Z) as [H|H].
    + left. eauto.
    + right. intros (c' & [= <-] & ?). done.
  - right. intros (c' & [=] & ?).
Defined.

Definition where_lt_12 (coordination_list : list Z) : list nat :=
  filter (is_surface coordination_list) (seq 0 (length coordination_list)).

(** ** The surface partition *)

(** One pass of the inner loop body: the neighbour goes to the surface
    dictionary when it is a surface atom, to the subsurface one otherwise. *)
Definition classify_neighbor (surface_indices : list nat) (surface_idx : nat)
    (st : dict * dict) (neigh : nat) : option (dict * dict) :=
  let '(surface_neighbors_dict, subsurface_neighbors_dict) := st in
  if decide (neigh ∈ surface_indices) then
    d ← dict_append surface_neighbors_dict surface_idx neigh;
    Some (d, subsurface_neighbors_dict)
  else
    d ← dict_append subsurface_neighbors_dict surface_idx neigh;
    Some (surface_neighbors_dict, d).

Definition get_surface_neighbors (coordination_list : list Z)
    (neighbor_dict : gmap nat (list nat)) : option (dict * dict) :=
  let surface_indices := where_lt_12 coordination_list in
  let surface_neighbors_dict := (λ x, (x, [])) <$> surface_indices in
  let subsurface_neighbors_dict := (λ x, (x, [])) <$> surface_indices in
  for_each
    (λ st surface_idx,
       neighbors ← neighbor_dict !! surface_idx;
       for_each (classify_neighbor surface_indices surface_idx) neighbors st)
    surface_indices
    (surface_neighbors_dict, subsurface_neighbors_dict).

(** ** The enumerations

    The notebook reads the global [surface_neighbors_dict]; it is a
    parameter here. *)

Definition get_surface_common_indices (surface_neighbors_dict : dict)
    (a b : nat) : option (list nat) :=
  na ← dict_get surface_neighbors_dict a;
  nb ← dict_get surface_neighbors_dict b;
  Some (intersect1d na nb).

Definition get_brige_site_indices (surface_neighbors_dict : dict) : list site :=
  foldl
    (λ bridge_site_indices '(central_i, neighbors),
       foldl
         (λ acc neigh_i,
            if decide (central_i < neigh_i) then acc ++ [[central_i; neigh_i]]
            else acc)
         bridge_site_indices (sorted neighbors))
    [] surface_neighbors_dict.

(** [if s not in acc: acc.append(s)] *)
Definition append_if_new (acc : list site) (s : site) : list site :=
  if decide (s ∈ acc) then acc else acc ++ [s].

Definition get_hollow_site_indices (surface_neighbors_dict : dict)
  : option (list site) :=
  let bridge_site_indices := get_brige_site_indices surface_neighbors_dict in
  for_each
    (λ hollow_site_indices bridge,
       match bridge with
       | [idx1; idx2] =>
           common_idices ←
             get_surface_common_indices surface_neighbors_dict idx1 idx2;
           Some (foldl
                   (λ acc common_idx,
                      append_if_new acc (sorted [idx1; idx2; common_idx]))
                   hollow_site_indices common_idices)
       | _ => None
       end)
    bridge_site_indices [].

(** [enumerate(l)] *)
Definition enumerate {A : Type} (l : list A) : list (nat * A) :=
  zip (seq 0 (length l)) l.

(** The body of the inner loop of [get_four_fold_hollow_site]. *)
Definition four_fold_step (surface_neighbors_dict : dict) (bridge_site : site)
    (four_fold_hollow_site : list site) (other_bridge_site : site)
  : option (list site) :=
  if decide (length (intersect1d bridge_site other_bridge_site) = 0) then
    match bridge_site, other_bridge_site with
    | [a; b], [c; d] =>
        na ← dict_get surface_neighbors_dict a;
        let check_a := intersect1d na other_bridge_site in
        nb ← dict_get surface_neighbors_dict b;
        let check_b := intersect1d nb other_bridge_site in
        if decide (length check_a = 1 ∧ length check_b = 1) then
          if decide (check_a ≠ check_b) then
            Some (append_if_new four_fold_hollow_site (sorted [a; b; c; d]))
          else Some four_fold_hollow_site
        else Some four_fold_hollow_site
    | _, _ => None
    end
  else Some four_fold_hollow_site.

Definition get_four_fold_hollow_site (surface_neighbors_dict : dict)
  : option (list site) :=
  let bridge_sites_indices := get_brige_site_indices surface_neighbors_dict in
  for_each
    (λ four_fold_hollow_site '(i, bridge_site),
       for_each (four_fold_step surface_neighbors_dict bridge_site)
         (drop (S i) bridge_sites_indices) four_fold_hollow_site)
    (enumerate bridge_sites_indices) [].

(** ** The two facets of the specification's scenarios *)

Definition square_coordination : list Z := [2; 2; 2; 2]%Z.
Definition square_neighbors : gmap nat (list nat) :=
  list_to_map [(0, [1; 3]); (1, [0; 2]); (2, [1; 3]); (3, [0; 2])].

Definition triangle_coordination : list Z := [2; 2; 2]%Z.
Definition triangle_neighbors : gmap nat (list nat) :=
  list_to_map [(0, [1; 2]); (1, [0; 2]); (2, [0; 1])].

(** The scenario inputs in general: every atom is a surface atom, and the
    neighbours of each atom are those of the facet, listed once each in any
    order. *)
Definition square_facet_input (cl : list Z) (nd : gmap nat (list nat)) : Prop :=
  length cl = 4 ∧ Forall (λ c, (c < 12)%Z) cl ∧
  ∃ l0 l1 l2 l3,
    nd !! 0 = Some l0 ∧ nd !! 1 = Some l1 ∧ nd !! 2 = Some l2 ∧ nd !! 3 = Some l3 ∧
    l0 ≡ₚ [1; 3] ∧ l1 ≡ₚ [0; 2] ∧ l2 ≡ₚ [1; 3] ∧ l3 ≡ₚ [0; 2].

Definition triangular_facet_input (cl : list Z) (nd : gmap nat (list nat)) : Prop :=
  length cl = 3 ∧ Forall (λ c, (c < 12)%Z) cl ∧
  ∃ l0 l1 l2,
    nd !! 0 = Some l0 ∧ nd !! 1 = Some l1 ∧ nd !! 2 = Some l2 ∧
    l0 ≡ₚ [1; 2] ∧ l1 ≡ₚ [0; 2] ∧ l2 ≡ₚ [0; 1].

(** Two surface atoms of which each lists the other twice. *)
Definition repeated_coordination : list Z := [2; 2]%Z.
Definition repeated_neighbors : gmap nat (list nat) :=
  list_to_map [(0, [1; 1]); (1, [0; 0])].

(** ** Vocabulary of the specification *)

(** [b] is listed among the surface neighbours of [a]. *)
Definition surface_neighbor (surface_neighbors_dict : dict) (a b : nat) : Prop :=
  ∃ l, dict_get surface_neighbors_dict a = Some l ∧ b ∈ l.

(** The neighbour graph is symmetric: whenever [b] is listed for [a], the
    graph has an entry for [b] and it lists [a]. *)
Definition symmetric (neighbor_dict : gmap nat (list nat)) : Prop :=
  ∀ a b la, neighbor_dict !! a = Some la → b ∈ la →
    ∃ lb, neighbor_dict !! b = Some lb ∧ a ∈ lb.

(** No atom is listed as its own neighbour. *)
Definition irreflexive (neighbor_dict : gmap nat (list nat)) : Prop :=
  ∀ a la, neighbor_dict !! a = Some la → a ∉ la.

(** Every neighbour sequence lists an atom at most once. *)
Definition duplicate_free (neighbor_dict : gmap nat (list nat)) : Prop :=
  ∀ a la, neighbor_dict !! a = Some la → NoDup la.

(** The bridge pairs that one entry of the surface dictionary contributes:
    the key with each of its larger neighbours, in increasing order. *)
Definition bridges_of_entry (e : nat * list nat) : list site :=
  (λ b, [e.1; b]) <$> filter (λ b, e.1 < b) (sorted e.2).

(** The acceptance rule of the 4-fold enumeration, in words: [a] has exactly
    one surface neighbour [x] among [c] and [d], [b] has exactly one surface
    neighbour [y] among them, and [x] and [y] are different atoms. *)
Definition four_fold_accepts (surface_neighbors_dict : dict) (a b c d : nat)
  : Prop :=
  ∃ x y,
    (∀ w, surface_neighbor surface_neighbors_dict a w ∧ w ∈ [c; d] ↔ w = x) ∧
    (∀ w, surface_neighbor surface_neighbors_dict b w ∧ w ∈ [c; d] ↔ w = y) ∧
    x ≠ y.

(** Two sites have no atom in common. *)
Definition share_no_atom (p q : site) : Prop := ∀ w, w ∈ p → w ∉ q.

(** No two positions of a result hold the same site, sites being compared
    after sorting: two sites are the same after sorting exactly when one is
    a rearrangement of the other. *)
Definition no_repeated_site (l : list site) : Prop :=
  ∀ i j t u, l !! i = Some t → l !! j = Some u → t ≡ₚ u → i = j.

(** How many times a site occurs in a result sequence. *)
Definition occurrences (s : site) (l : list site) : nat :=
  length (filter (λ t, t = s) l).

(** [a] and [b] list each other as surface neighbours. *)
Definition adjacent (surface_neighbors_dict : dict) (a b : nat) : Prop :=
  surface_neighbor surface_neighbors_dict a b ∧
  surface_neighbor surface_neighbors_dict b a.

(** [p], [q], [r], [s] are four different atoms that form a closed chain
    p-q-r-s-p of surface neighbours in which neither diagonal, p-r or q-s,
    is a pair of surface neighbours. *)
Definition chordless_square (surface_neighbors_dict : dict) (p q r s : nat)
  : Prop :=
  NoDup [p; q; r; s] ∧
  adjacent surface_neighbors_dict p q ∧ adjacent surface_neighbors_dict q r ∧
  adjacent surface_neighbors_dict r s ∧ adjacent surface_neighbors_dict s p ∧
  ¬ surface_neighbor surface_neighbors_dict p r ∧
  ¬ surface_neighbor surface_neighbors_dict r p ∧
  ¬ surface_neighbor surface_neighbors_dict q s ∧
  ¬ surface_neighbor surface_neighbors_dict s q.

(** Dictionary order on pairs: by first atom, then by second. *)
Definition pair_le (s t : site) : Prop :=
  match s, t with
  | [a; b], [c; d] => a < c ∨ (a = c ∧ b ≤ d)
  | _, _ => False
  end.

(** Two neighbour graphs with the same entries up to the order in which
    each sequence lists its atoms. *)
Definition same_up_to_order (nd nd' : gmap nat (list nat)) : Prop :=
  ∀ i, option_Forall2 (≡ₚ) (nd !! i) (nd' !! i).

(** Two dictionaries with the same keys in the same order, whose lists
    agree up to the order of their atoms. *)
Definition dict_equiv (d d' : dict) : Prop :=
  Forall2 (λ e e', e.1 = e'.1 ∧ e.2 ≡ₚ e'.2) d d'.

(** The square facet with every neighbour sequence written the other way
    round. *)
Definition square_neighbors_reversed : gmap nat (list nat) :=
  list_to_map [(0, [3; 1]); (1, [2; 0]); (2, [3; 1]); (3, [2; 0])].

(** ** Placing an adsorbate on every site

    The notebook's cells that decorate the structure:
    [for site in get_four_fold_hollow_site(): o = Atoms('O');
     o.translate(np.average(system.positions[site], axis=0));
     system = system + o], and the same loop over
    [get_hollow_site_indices()].  A structure is the sequence of its atoms.
    Coordinates are floating-point vectors: their type and the three
    operations on them (the origin at which [Atoms('O')] puts its atom, the
    sum computed by [translate], the mean computed by [np.average]) are
    parameters here. *)

Section decoration.
Context {P : Type} (origin : P) (translate : P → P → P) (average : list P → P).

Record atom : Type := Atom { symbol : string; position : P }.

(** [system.positions] *)
Definition positions (system : list atom) : list P := position <$> system.

(** [positions[site]], indexing with a list of indices; [None] stands for
    [IndexError]. *)
Definition take_rows (ps : list P) (site : site) : option (list P) :=
  mapM (λ i, ps !! i) site.

(** The atom [o] after [o.translate(np.average(rows, axis=0))]. *)
Definition adsorbate_at (rows : list P) : atom :=
  Atom "O" (translate origin (average rows)).

(** One pass of the loop body; [system + o] appends the atom of [o]. *)
Definition place_adsorbate (system : list atom) (site : site)
  : option (list atom) :=
  rows ← take_rows (positions system) site;
  Some (system ++ [adsorbate_at rows]).

Definition decorate (sites : list site) (system : list atom)
  : option (list atom) :=
  for_each place_adsorbate sites system.

Definition decorate_four_fold_hollow (surface_neighbors_dict : dict)
    (system : list atom) : option (list atom) :=
  sites ← get_four_fold_hollow_site surface_neighbors_dict;
  decorate sites system.

Definition decorate_hollow (surface_neighbors_dict : dict)
    (system : list atom) : option (list atom) :=
  sites ← get_hollow_site_indices surface_neighbors_dict;
  decorate sites system.
End decoration.

Arguments atom : clear implicits.
Arguments Atom {P} _ _.
Arguments symbol {P} _.
Arguments position {P} _.

(** A four-atom chain on a line, for examples: coordinates are integers,
    the mean is the rounded-down integer mean. *)
Definition line_mean (rows : list Z) : Z :=
  (foldr Z.add 0 rows / Z.of_nat (length rows))%Z.
Definition line_square : list (atom Z) :=
  [Atom "Pt" 0%Z; Atom "Pt" 10%Z; Atom "Pt" 20%Z; Atom "Pt" 30%Z].

(** A square pyramid: the square facet 0-1-2-3 with an apex, atom 4, that
    is a neighbour of its four corners. *)
Definition pyramid_coordination : list Z := [3; 3; 3; 3; 4]%Z.
Definition pyramid_neighbors : gmap nat (list nat) :=
  list_to_map [(0, [1; 3; 4]); (1, [0; 2; 4]); (2, [1; 3; 4]); (3, [0; 2; 4]);
               (4, [0; 1; 2; 3])].

(** * Properties *)

(** ** Sorting and intersection *)

Lemma sorted_perm l : sorted l ≡ₚ l.
Proof. apply merge_sort_Permutation. Qed.

Lemma sorted_strongly l : StronglySorted (≤) (sorted l).
Proof. apply (StronglySorted_merge_sort (≤)). Qed.

Lemma elem_of_sorted x l : x ∈ sorted l ↔ x ∈ l.
Proof. by rewrite sorted_perm. Qed.

Lemma NoDup_sorted l : NoDup (sorted l) ↔ NoDup l.
Proof. by rewrite sorted_perm. Qed.

Lemma sorted_fixed l : StronglySorted (≤) l → sorted l = l.
Proof.
  intros Hl. apply (StronglySorted_unique (≤)); [apply sorted_strongly|done|].
  apply sorted_perm.
Qed.

Lemma sorted_idemp l : sorted (sorted l) = sorted l.
Proof. apply sorted_fixed, sorted_strongly. Qed.

Lemma sorted_perm_eq l k : l ≡ₚ k → sorted l = sorted k.
Proof.
  intros Hp. apply (StronglySorted_unique (≤)); try apply sorted_strongly.
  by rewrite !sorted_perm.
Qed.

Lemma elem_of_intersect1d v x y : v ∈ intersect1d x y ↔ v ∈ x ∧ v ∈ y.
Proof.
  unfold intersect1d, unique.
  rewrite list_elem_of_filter, elem_of_sorted, elem_of_remove_dups. tauto.
Qed.

Lemma NoDup_intersect1d x y : NoDup (intersect1d x y).
Proof.
  unfold intersect1d, unique. apply NoDup_filter, NoDup_sorted, NoDup_remove_dups.
Qed.

Example sorted_example : sorted [3; 1; 2; 1] = [1; 1; 2; 3].
Proof. reflexivity. Qed.

Example unique_example : unique [3; 1; 2; 1] = [1; 2; 3].
Proof. reflexivity. Qed.

Example intersect1d_example : intersect1d [5; 3; 1; 3] [3; 4; 5; 5] = [3; 5].
Proof. reflexivity. Qed.

(** A duplicate-free list with one element [x] is characterised by its
    members: this is how "exactly one common atom" is read. *)
Lemma intersect1d_singleton x y v :
  intersect1d x y = [v] ↔ ∀ w, (w ∈ x ∧ w ∈ y) ↔ w = v.
Proof.
  split.
  - intros E w. rewrite <- elem_of_intersect1d, E. apply list_elem_of_singleton.
  - intros H. pose proof (NoDup_intersect1d x y) as Hnd.
    assert (Hm : ∀ w, w ∈ intersect1d x y ↔ w = v).
    { intros w. by rewrite elem_of_intersect1d. }
    destruct (intersect1d x y) as [|w1 [|w2 l]].
    + exfalso. apply (not_elem_of_nil v), Hm. done.
    + f_equal. apply Hm. left.
    + exfalso. apply NoDup_cons in Hnd as [Hn _]. apply Hn.
      assert (w1 = v) as -> by (apply Hm; left).
      assert (w2 = v) as -> by (apply Hm; right; left). left.
Qed.

Lemma intersect1d_empty x y :
  length (intersect1d x y) = 0 ↔ ∀ w, w ∈ x → w ∉ y.
Proof.
  split.
  - intros E w Hx Hy. apply length_zero_iff_nil in E.
    apply (not_elem_of_nil w). rewrite <- E. by apply elem_of_intersect1d.
  - intros H. destruct (intersect1d x y) as [|w l] eqn:E; [done|].
    exfalso. assert (Hw : w ∈ intersect1d x y) by (rewrite E; left).
    apply elem_of_intersect1d in Hw as [? ?]. by eapply H.
Qed.

(** ** The surface set *)

Lemma elem_of_where_lt_12 cl i : i ∈ where_lt_12 cl ↔ is_surface cl i.
Proof.
  unfold where_lt_12. rewrite list_elem_of_filter, elem_of_seq.
  split; [tauto|]. intros H. split; [done|].
  destruct H as (c & Hc & _). apply lookup_lt_Some in Hc. lia.
Qed.

Lemma NoDup_where_lt_12 cl : NoDup (where_lt_12 cl).
Proof. apply NoDup_filter, NoDup_seq. Qed.

Lemma where_lt_12_increasing cl : StronglySorted (<) (where_lt_12 cl).
Proof.
  unfold where_lt_12. generalize 0 as s. generalize (length cl) as n.
  induction n as [|n IH]; intros s; simpl; [constructor|].
  rewrite filter_cons. case_decide; [|apply IH].
  constructor; [apply IH|].
  apply Forall_forall. intros x [_ Hx%elem_of_seq]%list_elem_of_filter. lia.
Qed.

(** ** Dictionaries *)

Lemma dict_get_elem_of d k v : dict_get d k = Some v → (k, v) ∈ d.
Proof.
  induction d as [|[k' v'] d IH]; simpl; [done|].
  case_decide; [intros [= <-]; subst; left | intros; right; auto].
Qed.

Lemma dict_get_is_key d k : is_Some (dict_get d k) ↔ k ∈ keys d.
Proof.
  unfold keys. induction d as [|[k' v'] d IH]; simpl.
  - split; [by intros [? ?]|by intros ?%not_elem_of_nil].
  - rewrite elem_of_cons. case_decide; subst; simpl.
    + split; eauto.
    + rewrite IH. split; [auto|]. intros [->|?]; done.
Qed.

Lemma elem_of_dict_get d k v : NoDup (keys d) → (k, v) ∈ d → dict_get d k = Some v.
Proof.
  unfold keys. induction d as [|[k' v'] d IH]; simpl.
  - by intros _ ?%not_elem_of_nil.
  - intros [Hk Hd]%NoDup_cons [[= -> ->]|Hin]%elem_of_cons.
    + case_decide; done.
    + case_decide; [|auto]. subst. exfalso. apply Hk.
      by apply (list_elem_of_fmap_2 fst _ (k, v)).
Qed.

Lemma dict_get_fmap (f : nat → list nat) (l : list nat) k :
  dict_get ((λ x, (x, f x)) <$> l) k = if decide (k ∈ l) then Some (f k) else None.
Proof.
  induction l as [|x l IH].
  - done.
  - cbn [fmap list_fmap dict_get]. rewrite IH.
    destruct (decide (x = k)) as [->|Hne].
    + rewrite decide_True; [done|left].
    + destruct (decide (k ∈ l)) as [Hin|Hin].
      * rewrite decide_True; [done|by right].
      * rewrite decide_False; [done|]. intros [->|?]%elem_of_cons; done.
Qed.

Lemma keys_fmap (f : nat → list nat) (l : list nat) :
  keys ((λ x, (x, f x)) <$> l) = l.
Proof.
  unfold keys. rewrite <- list_fmap_compose. induction l; simpl; by f_equal.
Qed.

Lemma dict_append_middle pre k v post x :
  k ∉ keys pre →
  dict_append (pre ++ (k, v) :: post) k x = Some (pre ++ (k, v ++ [x]) :: post).
Proof.
  unfold keys. induction pre as [|[k' v'] pre IH]; simpl; intros Hk.
  - by rewrite decide_True.
  - apply not_elem_of_cons in Hk as [Hne Hk].
    rewrite decide_False by done. by rewrite IH.
Qed.

(** ** Loops *)

(** A loop that only ever adds sites to a duplicate-free accumulator: if
    every pass succeeds and adds exactly the sites that its element emits,
    the loop succeeds and adds exactly the sites that some element emits. *)
Lemma for_each_collect {A} (body : list site → A → option (list site))
    (emits : A → site → Prop) (l : list A) :
  (∀ acc x, x ∈ l → NoDup acc →
     ∃ acc', body acc x = Some acc' ∧ NoDup acc' ∧
             ∀ q, q ∈ acc' ↔ q ∈ acc ∨ emits x q) →
  ∀ acc, NoDup acc →
    ∃ acc', for_each body l acc = Some acc' ∧ NoDup acc' ∧
            ∀ q, q ∈ acc' ↔ q ∈ acc ∨ ∃ x, x ∈ l ∧ emits x q.
Proof.
  induction l as [|x l IH]; intros Hbody acc Hacc; simpl.
  - exists acc. split_and!; [done..|]. intros q. split; [auto|].
    intros [?|(x & ?%not_elem_of_nil & _)]; done.
  - destruct (Hbody acc x) as (acc1 & -> & Hnd1 & Hm1); [left|done|]. simpl.
    destruct (IH (λ a y Hy, Hbody a y (list_elem_of_further _ _ _ Hy)) acc1 Hnd1)
      as (acc2 & -> & Hnd2 & Hm2).
    exists acc2. split_and!; [done..|]. intros q. rewrite Hm2, Hm1.
    setoid_rewrite elem_of_cons. naive_solver.
Qed.

Lemma append_if_new_spec acc s :
  NoDup acc →
  NoDup (append_if_new acc s) ∧ ∀ q, q ∈ append_if_new acc s ↔ q ∈ acc ∨ q = s.
Proof.
  intros Hnd. unfold append_if_new. case_decide.
  - split; [done|]. naive_solver.
  - split.
    + apply NoDup_app. split_and!; [done| |apply NoDup_singleton].
      intros x Hx ->%list_elem_of_singleton. done.
    + intros q. rewrite elem_of_app, list_elem_of_singleton. done.
Qed.

Lemma foldl_append_if_new {A} (f : A → site) (l : list A) acc :
  NoDup acc →
  NoDup (foldl (λ a x, append_if_new a (f x)) acc l) ∧
  ∀ q, q ∈ foldl (λ a x, append_if_new a (f x)) acc l ↔
       q ∈ acc ∨ ∃ x, x ∈ l ∧ q = f x.
Proof.
  revert acc. induction l as [|x l IH]; intros acc Hnd; simpl.
  - split; [done|]. intros q. split; [auto|].
    intros [?|(x & ?%not_elem_of_nil & _)]; done.
  - destruct (append_if_new_spec acc (f x) Hnd) as [Hnd1 Hm1].
    destruct (IH _ Hnd1) as [Hnd2 Hm2]. split; [done|].
    intros q. rewrite Hm2, Hm1. setoid_rewrite elem_of_cons. naive_solver.
Qed.

(** ** The surface partition: what the two loops compute *)

Section partition.
Variable coordination_list : list Z.
Variable neighbor_dict : gmap nat (list nat).

Let S0 := where_lt_12 coordination_list.
Let blank := λ x : nat, (x, @nil nat).
Let surf_of := λ x, (x, filter (λ n, n ∈ S0) (default [] (neighbor_dict !! x))).
Let sub_of := λ x, (x, filter (λ n, n ∉ S0) (default [] (neighbor_dict !! x))).

(** The inner loop extends the two lists stored under [k], and nothing
    else. *)
Lemma classify_loop k ns : ∀ pre1 l1 post1 pre2 l2 post2,
  k ∉ keys pre1 → k ∉ keys pre2 →
  for_each (classify_neighbor S0 k) ns
    (pre1 ++ (k, l1) :: post1, pre2 ++ (k, l2) :: post2)
  = Some (pre1 ++ (k, l1 ++ filter (λ n, n ∈ S0) ns) :: post1,
          pre2 ++ (k, l2 ++ filter (λ n, n ∉ S0) ns) :: post2).
Proof.
  induction ns as [|n ns IH]; intros pre1 l1 post1 pre2 l2 post2 H1 H2.
  - simpl. by rewrite !app_nil_r.
  - cbn [for_each classify_neighbor]. rewrite !filter_cons.
    destruct (decide (n ∈ S0)) as [Hn|Hn].
    + rewrite dict_append_middle by done. simpl.
      rewrite IH by done. rewrite decide_False by tauto.
      by rewrite <- app_assoc.
    + rewrite dict_append_middle by done. simpl.
      rewrite decide_True by done.
      rewrite IH by done. by rewrite <- app_assoc.
Qed.

Let outer := λ (st : dict * dict) (surface_idx : nat),
  neighbors ← neighbor_dict !! surface_idx;
  for_each (classify_neighbor S0 surface_idx) neighbors st.

Lemma partition_loop rest : ∀ done,
  NoDup (done ++ rest) →
  (∀ i, i ∈ rest → is_Some (neighbor_dict !! i)) →
  for_each outer rest
    ((surf_of <$> done) ++ (blank <$> rest), (sub_of <$> done) ++ (blank <$> rest))
  = Some (surf_of <$> (done ++ rest), sub_of <$> (done ++ rest)).
Proof.
  induction rest as [|k rest IH]; intros done Hnd Hall.
  - simpl. by rewrite !app_nil_r.
  - destruct (Hall k) as [ns Hns]; [left|].
    assert (Hout : ∀ st, outer st k = for_each (classify_neighbor S0 k) ns st).
    { intros st. unfold outer. by rewrite Hns. }
    cbn [for_each fmap list_fmap]. rewrite Hout.
    assert (Hk : k ∉ done).
    { apply NoDup_app in Hnd as (_ & Hd & _). intros Hin. apply (Hd k Hin). left. }
    unfold blank at 1 3. rewrite classify_loop; cycle 1.
    { unfold surf_of. by rewrite keys_fmap. }
    { unfold sub_of. by rewrite keys_fmap. }
    assert (E1 : surf_of k = (k, filter (λ n, n ∈ S0) ns)).
    { unfold surf_of. by rewrite Hns. }
    assert (E2 : sub_of k = (k, filter (λ n, n ∉ S0) ns)).
    { unfold sub_of. by rewrite Hns. }
    simpl. specialize (IH (done ++ [k])).
    rewrite <- !app_assoc, !fmap_app, !fmap_cons, E1, E2 in IH.
    rewrite <- !app_assoc in IH. simpl in IH.
    rewrite !fmap_app, !fmap_cons, E1, E2.
    apply IH; [done|]. intros i Hi. apply Hall. by right.
Qed.

Lemma partition_loop_keys rest st r :
  for_each outer rest st = Some r →
  ∀ i, i ∈ rest → is_Some (neighbor_dict !! i).
Proof.
  revert st. induction rest as [|k rest IH]; intros st Hr i Hi.
  - by apply not_elem_of_nil in Hi.
  - cbn [for_each] in Hr.
    destruct (outer st k) as [st'|] eqn:Ek; [|done]. simpl in Hr.
    apply elem_of_cons in Hi as [->|Hi]; [|by eapply IH].
    unfold outer in Ek. by destruct (neighbor_dict !! k).
Qed.

(** The partition succeeds exactly when the neighbour graph has an entry
    for every surface atom; the dictionaries it returns map each surface
    atom, in increasing order, to its surface and subsurface
    neighbours. *)
Lemma get_surface_neighbors_Some surf sub :
  get_surface_neighbors coordination_list neighbor_dict = Some (surf, sub) ↔
  (∀ i, i ∈ S0 → is_Some (neighbor_dict !! i)) ∧
  surf = surf_of <$> S0 ∧ sub = sub_of <$> S0.
Proof.
  unfold get_surface_neighbors. fold S0. fold blank. fold outer.
  pose proof (partition_loop S0 [] (NoDup_where_lt_12 _)) as Hloop.
  simpl in Hloop. split.
  - intros Hr. pose proof (partition_loop_keys _ _ _ Hr) as Hk.
    rewrite Hloop in Hr by done. by injection Hr as <- <-.
  - intros (Hk & -> & ->). by apply Hloop.
Qed.
End partition.

(** ** What the partition returns, in the vocabulary of the specification *)

Section pipeline.
Context {coordination_list : list Z} {neighbor_dict : gmap nat (list nat)}.
Context {surf sub : dict}.
Hypothesis Hrun :
  get_surface_neighbors coordination_list neighbor_dict = Some (surf, sub).

Lemma surf_keys : keys surf = where_lt_12 coordination_list.
Proof.
  apply get_surface_neighbors_Some in Hrun as (_ & -> & _). apply keys_fmap.
Qed.


Lemma surf_keys_NoDup : NoDup (keys surf).
Proof. rewrite surf_keys. apply NoDup_where_lt_12. Qed.

Lemma surface_has_entry a :
  is_surface coordination_list a → is_Some (neighbor_dict !! a).
Proof.
  intros Ha. apply get_surface_neighbors_Some in Hrun as (Hk & _ & _).
  by apply Hk, elem_of_where_lt_12.
Qed.

Lemma surf_get a l :
  dict_get surf a = Some l ↔
  is_surface coordination_list a ∧
  ∃ la, neighbor_dict !! a = Some la ∧
        l = filter (λ n, n ∈ where_lt_12 coordination_list) la.
Proof.
  pose proof Hrun as (Hk & -> & _)%get_surface_neighbors_Some.
  rewrite (dict_get_fmap
    (λ x, filter (λ n, n ∈ where_lt_12 coordination_list)
            (default [] (neighbor_dict !! x)))).
  rewrite <- elem_of_where_lt_12. case_decide as Ha.
  - destruct (Hk a Ha) as [la Hla]. rewrite Hla. simpl. split.
    + intros [= <-]. eauto.
    + intros (_ & la' & [= <-] & ->). done.
  - split; [done|]. by intros [? _].
Qed.


Lemma surface_neighbor_iff a b :
  surface_neighbor surf a b ↔
  is_surface coordination_list a ∧ is_surface coordination_list b ∧
  ∃ la, neighbor_dict !! a = Some la ∧ b ∈ la.
Proof.
  unfold surface_neighbor. split.
  - intros (l & (Ha & la & Hla & ->)%surf_get & Hb).
    apply list_elem_of_filter in Hb as [Hb%elem_of_where_lt_12 Hin]. eauto.
  - intros (Ha & Hb & la & Hla & Hin). eexists. split.
    + apply surf_get. eauto.
    + apply list_elem_of_filter. by rewrite elem_of_where_lt_12.
Qed.

(** Every atom listed in the surface dictionary is one of its keys: the
    lookups of the enumerations cannot raise. *)
Lemma surf_closed a b : surface_neighbor surf a b → is_Some (dict_get surf b).
Proof.
  intros (_ & Hb & _)%surface_neighbor_iff.
  destruct (surface_has_entry b Hb) as [lb Hlb].
  eexists. apply surf_get. eauto.
Qed.

Lemma surf_key_surface a : is_Some (dict_get surf a) ↔ is_surface coordination_list a.
Proof.
  rewrite dict_get_is_key, surf_keys. apply elem_of_where_lt_12.
Qed.
End pipeline.

(** ** Bridge sites *)

Lemma bridge_inner_loop a l acc :
  foldl (λ acc neigh_i, if decide (a < neigh_i) then acc ++ [[a; neigh_i]] else acc)
    acc l
  = acc ++ ((λ b, [a; b]) <$> filter (λ b, a < b) l).
Proof.
  revert acc. induction l as [|n l IH]; intros acc; simpl.
  - by rewrite app_nil_r.
  - rewrite IH, filter_cons. case_decide; [|done].
    by rewrite <- app_assoc.
Qed.

Lemma get_brige_site_indices_bind d :
  get_brige_site_indices d = d ≫= bridges_of_entry.
Proof.
  unfold get_brige_site_indices.
  enough (H : ∀ acc,
    foldl (λ bridge_site_indices '(central_i, neighbors),
       foldl (λ acc neigh_i,
            if decide (central_i < neigh_i) then acc ++ [[central_i; neigh_i]]
            else acc) bridge_site_indices (sorted neighbors)) acc d
    = acc ++ (d ≫= bridges_of_entry)) by apply (H []).
  induction d as [|[a l] d IH]; intros acc; simpl.
  - by rewrite app_nil_r.
  - rewrite IH, bridge_inner_loop. by rewrite <- app_assoc.
Qed.

Lemma elem_of_bridges_of_entry s e :
  s ∈ bridges_of_entry e ↔ ∃ b, s = [e.1; b] ∧ e.1 < b ∧ b ∈ e.2.
Proof.
  unfold bridges_of_entry. rewrite list_elem_of_fmap.
  setoid_rewrite list_elem_of_filter. setoid_rewrite elem_of_sorted. done.
Qed.

Lemma elem_of_bridges d s :
  NoDup (keys d) →
  s ∈ get_brige_site_indices d ↔
  ∃ a b, s = [a; b] ∧ a < b ∧ surface_neighbor d a b.
Proof.
  intros Hnd. rewrite get_brige_site_indices_bind, list_elem_of_bind.
  setoid_rewrite elem_of_bridges_of_entry. unfold surface_neighbor. split.
  - intros ([a l] & (b & -> & Hlt & Hb) & Hin). simpl in *.
    exists a, b. split_and!; [done..|]. exists l. split; [|done].
    by apply elem_of_dict_get.
  - intros (a & b & -> & Hlt & l & Hl & Hb). exists (a, l). split.
    + exists b. done.
    + by apply dict_get_elem_of.
Qed.

Lemma bridges_NoDup d :
  NoDup (keys d) → (∀ a l, (a, l) ∈ d → NoDup l) →
  NoDup (get_brige_site_indices d).
Proof.
  intros Hk Hl. rewrite get_brige_site_indices_bind. apply NoDup_bind.
  - intros [a1 l1] [a2 l2] s H1 H2 (b1 & -> & _ & _)%elem_of_bridges_of_entry
      (b2 & [= -> ->] & _ & _)%elem_of_bridges_of_entry. simpl in *.
    f_equal. apply elem_of_dict_get in H1, H2; try done. congruence.
  - intros [a l] Hin. unfold bridges_of_entry. simpl.
    apply (NoDup_fmap_2 _). apply NoDup_filter, NoDup_sorted. eauto.
  - eapply NoDup_fmap_1. apply Hk.
Qed.

Lemma occurrences_NoDup s (l : list site) : NoDup l → s ∈ l → occurrences s l = 1.
Proof.
  unfold occurrences. induction 1 as [|t l Ht Hl IH]; intros Hs.
  - by apply not_elem_of_nil in Hs.
  - rewrite filter_cons. apply elem_of_cons in Hs as [->|Hs].
    + rewrite decide_True by done. simpl. f_equal.
      apply length_zero_iff_nil. apply elem_of_nil_inv.
      intros u [-> Hu]%list_elem_of_filter. done.
    + rewrite decide_False; [auto|]. intros ->. done.
Qed.

Lemma occurrences_absent s (l : list site) : s ∉ l → occurrences s l = 0.
Proof.
  intros Hs. unfold occurrences. apply length_zero_iff_nil, elem_of_nil_inv.
  intros u [-> Hu]%list_elem_of_filter. done.
Qed.

Section bridge_pipeline.
Context {coordination_list : list Z} {neighbor_dict : gmap nat (list nat)}.
Context {surf sub : dict}.
Hypothesis Hrun :
  get_surface_neighbors coordination_list neighbor_dict = Some (surf, sub).

Lemma elem_of_bridges_run s :
  s ∈ get_brige_site_indices surf ↔
  ∃ a b, s = [a; b] ∧ a < b ∧ surface_neighbor surf a b.
Proof. apply elem_of_bridges, (surf_keys_NoDup Hrun). Qed.

Lemma bridges_NoDup_run :
  duplicate_free neighbor_dict → NoDup (get_brige_site_indices surf).
Proof.
  intros Hdf. apply bridges_NoDup; [apply (surf_keys_NoDup Hrun)|].
  intros a l Hin. apply elem_of_dict_get in Hin; [|apply (surf_keys_NoDup Hrun)].
  apply (surf_get Hrun) in Hin as (_ & la & Hla & ->).
  apply NoDup_filter. by eapply Hdf.
Qed.

Lemma surface_neighbor_sym a b :
  symmetric neighbor_dict → surface_neighbor surf a b → surface_neighbor surf b a.
Proof.
  intros Hsym (Ha & Hb & la & Hla & Hin)%(surface_neighbor_iff Hrun).
  apply (surface_neighbor_iff Hrun). split_and!; [done..|].
  by eapply Hsym.
Qed.

Lemma surface_neighbor_irrefl a :
  irreflexive neighbor_dict → ¬ surface_neighbor surf a a.
Proof.
  intros Hirr (_ & _ & la & Hla & Hin)%(surface_neighbor_iff Hrun).
  by eapply Hirr.
Qed.

Lemma bridge_is_pair s :
  s ∈ get_brige_site_indices surf →
  ∃ a b na nb, s = [a; b] ∧ a < b ∧ surface_neighbor surf a b ∧
               dict_get surf a = Some na ∧ dict_get surf b = Some nb.
Proof.
  intros (a & b & -> & Hlt & Hab)%elem_of_bridges_run.
  destruct (surf_closed Hrun a b Hab) as [nb Hnb].
  destruct Hab as (na & Hna & Hin). exists a, b, na, nb.
  split_and!; try done. by exists na.
Qed.
End bridge_pipeline.

(** ** 3-fold hollow sites *)

Section hollow_pipeline.
Context {coordination_list : list Z} {neighbor_dict : gmap nat (list nat)}.
Context {surf sub : dict}.
Hypothesis Hrun :
  get_surface_neighbors coordination_list neighbor_dict = Some (surf, sub).

Lemma get_hollow_site_indices_spec :
  ∃ h, get_hollow_site_indices surf = Some h ∧ NoDup h ∧
    ∀ t, t ∈ h ↔
      ∃ a b c, [a; b] ∈ get_brige_site_indices surf ∧
               surface_neighbor surf a c ∧ surface_neighbor surf b c ∧
               t = sorted [a; b; c].
Proof.
  unfold get_hollow_site_indices.
  edestruct (for_each_collect
    (λ hollow_site_indices bridge,
       match bridge with
       | [idx1; idx2] =>
           common_idices ← get_surface_common_indices surf idx1 idx2;
           Some (foldl
                   (λ acc common_idx,
                      append_if_new acc (sorted [idx1; idx2; common_idx]))
                   hollow_site_indices common_idices)
       | _ => None
       end)
    (λ bridge t, ∃ a b c, bridge = [a; b] ∧ surface_neighbor surf a c ∧
                          surface_neighbor surf b c ∧ t = sorted [a; b; c])
    (get_brige_site_indices surf)) as (h & Hh & Hnd & Hm); cycle 1.
  - apply NoDup_nil_2.
  - exists h. split_and!; [exact Hh|done|]. intros t. rewrite Hm. split.
    + intros [?%not_elem_of_nil|(bridge & Hin & a & b & c & -> & ?)]; [done|].
      exists a, b, c. done.
    + intros (a & b & c & Hin & ?). right. exists [a; b]. split; [done|].
      exists a, b, c. done.
  - intros acc bridge Hin Hacc.
    destruct (bridge_is_pair Hrun _ Hin) as (a & b & na & nb & -> & _ & _ & Hna & Hnb).
    unfold get_surface_common_indices. rewrite Hna, Hnb. simpl.
    destruct (foldl_append_if_new (λ c, sorted [a; b; c]) (intersect1d na nb) acc Hacc)
      as [Hnd Hm].
    eexists. split_and!; [done..|]. intros t. rewrite Hm.
    apply or_iff_compat_l. split.
    + intros (c & [Hca Hcb]%elem_of_intersect1d & ->).
      exists a, b, c. split_and!; [done| | |done]; eexists; eauto.
    + intros (a' & b' & c & [= <- <-] & (la & Hla & Hca) & (lb & Hlb & Hcb) & ->).
      exists c. split; [|done]. apply elem_of_intersect1d. split; congruence.
Qed.
End hollow_pipeline.

(** ** 4-fold hollow sites *)

Lemma elem_of_enumerate {A} (l : list A) i x :
  (i, x) ∈ enumerate l ↔ l !! i = Some x.
Proof.
  unfold enumerate. rewrite list_elem_of_lookup. split.
  - intros (n & Hn). apply lookup_zip_with_Some in Hn as (j & y & [= -> ->] & Hj & Hy).
    apply lookup_seq in Hj as [-> _]. done.
  - intros Hx. exists i. apply lookup_zip_with_Some. exists i, x.
    split_and!; [done| |done]. apply lookup_seq. split; [done|].
    by eapply lookup_lt_Some.
Qed.

Lemma elem_of_drop_S {A} (l : list A) i x :
  x ∈ drop (S i) l ↔ ∃ j, i < j ∧ l !! j = Some x.
Proof.
  rewrite list_elem_of_lookup. setoid_rewrite lookup_drop. split.
  - intros (n & Hn). exists (S i + n). split; [lia|done].
  - intros (j & Hlt & Hj). exists (j - S i). by replace (S i + (j - S i)) with j by lia.
Qed.

Lemma length_one_iff (l : list nat) : length l = 1 ↔ ∃ x, l = [x].
Proof.
  split; [|by intros [x ->]].
  destruct l as [|x [|y l]]; simpl; intros; try lia. by exists x.
Qed.

Lemma checks_accept snd a b c d na nb :
  dict_get snd a = Some na → dict_get snd b = Some nb →
  (length (intersect1d na [c; d]) = 1 ∧ length (intersect1d nb [c; d]) = 1) ∧
  intersect1d na [c; d] ≠ intersect1d nb [c; d]
  ↔ four_fold_accepts snd a b c d.
Proof.
  intros Hna Hnb.
  assert (Ha : ∀ w, surface_neighbor snd a w ↔ w ∈ na).
  { intros w. unfold surface_neighbor. rewrite Hna. split.
    - by intros (l & [= <-] & ?).
    - eauto. }
  assert (Hb : ∀ w, surface_neighbor snd b w ↔ w ∈ nb).
  { intros w. unfold surface_neighbor. rewrite Hnb. split.
    - by intros (l & [= <-] & ?).
    - eauto. }
  unfold four_fold_accepts. setoid_rewrite Ha. setoid_rewrite Hb.
  setoid_rewrite <- intersect1d_singleton. rewrite !length_one_iff. split.
  - intros [[[x Hx] [y Hy]] Hne]. exists x, y. split_and!; [done..|].
    intros ->. congruence.
  - intros (x & y & Hx & Hy & Hne). split; [eauto|]. rewrite Hx, Hy. congruence.
Qed.

Lemma four_fold_step_spec snd a b c d na nb acc :
  dict_get snd a = Some na → dict_get snd b = Some nb → NoDup acc →
  ∃ acc', four_fold_step snd [a; b] acc [c; d] = Some acc' ∧ NoDup acc' ∧
    ∀ q, q ∈ acc' ↔
      q ∈ acc ∨ (share_no_atom [a; b] [c; d] ∧ four_fold_accepts snd a b c d ∧
                 q = sorted [a; b; c; d]).
Proof.
  intros Hna Hnb Hacc. unfold four_fold_step. rewrite Hna, Hnb. simpl.
  pose proof (checks_accept snd a b c d na nb Hna Hnb) as Hchk.
  pose proof (intersect1d_empty [a; b] [c; d]) as Hdisj.
  fold (share_no_atom [a; b] [c; d]) in Hdisj.
  destruct (decide (length (intersect1d [a; b] [c; d]) = 0)) as [H0|H0].
  - destruct (decide (length (intersect1d na [c; d]) = 1 ∧
                      length (intersect1d nb [c; d]) = 1)) as [H1|H1].
    + destruct (decide (intersect1d na [c; d] ≠ intersect1d nb [c; d])) as [H2|H2].
      * destruct (append_if_new_spec acc (sorted [a; b; c; d]) Hacc) as [Hnd Hm].
        eexists. split_and!; [done..|]. intros q. rewrite Hm.
        apply or_iff_compat_l. split; [|tauto]. intros ->.
        split_and!; [tauto| |done]. apply Hchk. done.
      * exists acc. split_and!; [done..|]. intros q. split; [auto|].
        intros [?|(_ & Hacc' & _)]; [done|]. apply Hchk in Hacc'. tauto.
    + exists acc. split_and!; [done..|]. intros q. split; [auto|].
      intros [?|(_ & Hacc' & _)]; [done|]. apply Hchk in Hacc'. tauto.
  - exists acc. split_and!; [done..|]. intros q. split; [auto|].
    intros [?|(? & _)]; [done|]. tauto.
Qed.

Section four_fold_pipeline.
Context {coordination_list : list Z} {neighbor_dict : gmap nat (list nat)}.
Context {surf sub : dict}.
Hypothesis Hrun :
  get_surface_neighbors coordination_list neighbor_dict = Some (surf, sub).

Lemma get_four_fold_hollow_site_spec :
  ∃ f, get_four_fold_hollow_site surf = Some f ∧ NoDup f ∧
    ∀ q, q ∈ f ↔
      ∃ i j a b c d,
        i < j ∧
        get_brige_site_indices surf !! i = Some [a; b] ∧
        get_brige_site_indices surf !! j = Some [c; d] ∧
        share_no_atom [a; b] [c; d] ∧
        four_fold_accepts surf a b c d ∧
        q = sorted [a; b; c; d].
Proof.
  unfold get_four_fold_hollow_site.
  set (bridges := get_brige_site_indices surf).
  set (inner := λ (bs other : site) (q : site),
    ∃ a b c d, bs = [a; b] ∧ other = [c; d] ∧ share_no_atom [a; b] [c; d] ∧
               four_fold_accepts surf a b c d ∧ q = sorted [a; b; c; d]).
  edestruct (for_each_collect
    (λ four_fold_hollow_site '(i, bridge_site),
       for_each (four_fold_step surf bridge_site)
         (drop (S i) bridges) four_fold_hollow_site)
    (λ '(i, bs) q, ∃ other, other ∈ drop (S i) bridges ∧ inner bs other q)
    (enumerate bridges)) as (f & Hf & Hnd & Hm); cycle 1.
  - apply NoDup_nil_2.
  - exists f. split_and!; [exact Hf|done|]. intros q. rewrite Hm. split.
    + intros [?%not_elem_of_nil|([i bs] & Hin%elem_of_enumerate & other &
        (j & Hlt & Hj)%elem_of_drop_S & a & b & c & d & -> & -> & ?)]; [done|].
      exists i, j, a, b, c, d. done.
    + intros (i & j & a & b & c & d & Hlt & Hi & Hj & ?). right.
      exists (i, [a; b]). split; [by apply elem_of_enumerate|].
      exists [c; d]. split; [apply elem_of_drop_S; eauto|].
      exists a, b, c, d. done.
  - intros acc [i bs] Hin%elem_of_enumerate Hacc.
    apply list_elem_of_lookup_2 in Hin.
    destruct (bridge_is_pair Hrun _ Hin) as (a & b & na & nb & -> & _ & _ & Hna & Hnb).
    apply (for_each_collect (four_fold_step surf [a; b]) (inner [a; b])); [|done].
    intros acc' other Hother%elem_of_drop_S Hacc'. destruct Hother as (j & _ & Hj).
    apply list_elem_of_lookup_2 in Hj.
    destruct (bridge_is_pair Hrun _ Hj) as (c & d & _ & _ & -> & _).
    destruct (four_fold_step_spec surf a b c d na nb acc' Hna Hnb Hacc')
      as (r & Hr & Hnd & Hm).
    exists r. split_and!; [done..|]. intros q. rewrite Hm.
    apply or_iff_compat_l. unfold inner. split.
    + intros ?. exists a, b, c, d. done.
    + intros (a' & b' & c' & d' & [= <- <-] & [= <- <-] & ?). done.
Qed.
End four_fold_pipeline.

(** * The claims of the specification *)

(** ** Concrete runs *)

Example square_partition :
  get_surface_neighbors square_coordination square_neighbors
  = Some ([(0, [1; 3]); (1, [0; 2]); (2, [1; 3]); (3, [0; 2])],
          [(0, []); (1, []); (2, []); (3, [])]).
Proof. vm_compute. reflexivity. Qed.

Example triangle_partition :
  get_surface_neighbors triangle_coordination triangle_neighbors
  = Some ([(0, [1; 2]); (1, [0; 2]); (2, [0; 1])], [(0, []); (1, []); (2, [])]).
Proof. vm_compute. reflexivity. Qed.

Example repeated_partition :
  get_surface_neighbors repeated_coordination repeated_neighbors
  = Some ([(0, [1; 1]); (1, [0; 0])], [(0, []); (1, [])]).
Proof. vm_compute. reflexivity. Qed.

(** Case analysis on a lookup in a neighbour graph that is written out. *)
Ltac graph_cases H :=
  repeat (apply lookup_insert_Some in H as [[<- <-]|[_ H]]);
  [..|by rewrite lookup_empty in H].

Ltac list_cases H :=
  repeat (apply elem_of_cons in H as [->|H]);
  [..|by apply not_elem_of_nil in H].

Ltac unfold_graph H :=
  unfold square_neighbors, triangle_neighbors, repeated_neighbors in H;
  simpl in H.

Ltac solve_symmetric :=
  intros a b la Ha Hb; unfold_graph Ha; graph_cases Ha; list_cases Hb;
  (eexists; split; [vm_compute; reflexivity|]; repeat constructor).

Ltac solve_irreflexive :=
  intros a la Ha Hin; unfold_graph Ha; graph_cases Ha;
  repeat (apply elem_of_cons in Hin as [Hin|Hin]; [discriminate Hin|]);
  by apply not_elem_of_nil in Hin.

Lemma square_symmetric : symmetric square_neighbors.
Proof. solve_symmetric. Qed.

Lemma triangle_symmetric : symmetric triangle_neighbors.
Proof. solve_symmetric. Qed.

Lemma triangle_irreflexive : irreflexive triangle_neighbors.
Proof. solve_irreflexive. Qed.

Lemma repeated_symmetric : symmetric repeated_neighbors.
Proof. solve_symmetric. Qed.

(** ** Surface partition *)

(** The partition raises only when the neighbour graph lacks the entry of a
    surface atom. *)
Lemma get_surface_neighbors_total cl (nd : gmap nat (list nat)) :
  is_Some (get_surface_neighbors cl nd) ↔
  ∀ i, is_surface cl i → is_Some (nd !! i).
Proof.
  setoid_rewrite <- elem_of_where_lt_12. split.
  - intros [[surf sub] H]. by apply get_surface_neighbors_Some in H as (? & _).
  - intros H. eexists (_, _). apply get_surface_neighbors_Some. done.
Qed.



(** C8. When every coordination number is at least 12 nothing raises: the
    surface set is empty, so are both neighbour dictionaries and the three
    enumerations. *)
Theorem bulk_only_structure cl (nd : gmap nat (list nat)) :
  Forall (λ c, (12 ≤ c)%Z) cl →
  where_lt_12 cl = [] ∧
  ∃ surf sub,
    get_surface_neighbors cl nd = Some (surf, sub) ∧ surf = [] ∧ sub = [] ∧
    get_brige_site_indices surf = [] ∧
    get_hollow_site_indices surf = Some [] ∧
    get_four_fold_hollow_site surf = Some [].
Proof.
  intros Hall.
  assert (E : where_lt_12 cl = []).
  { apply elem_of_nil_inv. intros i (c & Hc & Hlt)%elem_of_where_lt_12.
    pose proof (Forall_lookup_1 _ _ _ _ Hall Hc) as Hge. simpl in Hge. lia. }
  split; [done|]. exists [], []. unfold get_surface_neighbors. rewrite E. done.
Qed.

Lemma bulk_only_structure_witness :
  where_lt_12 [12; 12; 13]%Z = [] ∧
  ∃ surf sub,
    get_surface_neighbors [12; 12; 13]%Z (list_to_map [(0, [1; 2]); (1, [0]); (2, [0])])
      = Some (surf, sub) ∧ surf = [] ∧ sub = [] ∧
    get_brige_site_indices surf = [] ∧
    get_hollow_site_indices surf = Some [] ∧
    get_four_fold_hollow_site surf = Some [].
Proof.
  apply (bulk_only_structure [12; 12; 13]%Z). repeat constructor; lia.
Defined.

(** ** Bridge sites *)

Lemma square_duplicate_free : duplicate_free square_neighbors.
Proof.
  intros a la Ha. unfold_graph Ha. graph_cases Ha;
    repeat constructor; set_solver.
Qed.

(** C1. For a symmetric neighbour graph whose neighbour sequences list each
    atom once, the bridge enumeration emits exactly the pairs [[a; b]] where
    [a] is a surface atom, [b] is one of its surface neighbours and [a < b];
    consequently every unordered pair of surface-neighbouring atoms, named
    by [a < b], occurs exactly once, as [[a; b]], and never as [[b; a]]. *)
Theorem bridge_sites_enumerated cl (nd : gmap nat (list nat)) surf sub :
  symmetric nd → duplicate_free nd →
  get_surface_neighbors cl nd = Some (surf, sub) →
  (∀ s, s ∈ get_brige_site_indices surf ↔
        ∃ a b, s = [a; b] ∧ is_surface cl a ∧ surface_neighbor surf a b ∧ a < b) ∧
  (∀ a b, a < b → surface_neighbor surf a b ∨ surface_neighbor surf b a →
     surface_neighbor surf a b ∧ surface_neighbor surf b a ∧
     occurrences [a; b] (get_brige_site_indices surf) = 1 ∧
     occurrences [b; a] (get_brige_site_indices surf) = 0).
Proof.
  intros Hsym Hdf Hrun. split.
  - intros s. rewrite (elem_of_bridges_run Hrun). split.
    + intros (a & b & -> & Hlt & Hab). exists a, b. split_and!; try done.
      by apply (surface_neighbor_iff Hrun) in Hab as (? & _).
    + intros (a & b & -> & _ & Hab & Hlt). eauto.
  - intros a b Hlt Hadj.
    assert (Hab : surface_neighbor surf a b).
    { destruct Hadj; [done|]. by apply (surface_neighbor_sym Hrun b a). }
    pose proof (surface_neighbor_sym Hrun a b Hsym Hab) as Hba.
    pose proof (bridges_NoDup_run Hrun Hdf) as Hnd.
    split_and!; [done..| |].
    + apply occurrences_NoDup; [done|]. apply (elem_of_bridges_run Hrun). eauto.
    + apply occurrences_absent.
      intros (a' & b' & [= <- <-] & Hlt' & _)%(elem_of_bridges_run Hrun). lia.
Qed.

Lemma bridge_sites_enumerated_witness :
  [0; 1] ∈ get_brige_site_indices
             [(0, [1; 3]); (1, [0; 2]); (2, [1; 3]); (3, [0; 2])] ∧
  occurrences [0; 1]
    (get_brige_site_indices [(0, [1; 3]); (1, [0; 2]); (2, [1; 3]); (3, [0; 2])])
  = 1 ∧
  occurrences [1; 0]
    (get_brige_site_indices [(0, [1; 3]); (1, [0; 2]); (2, [1; 3]); (3, [0; 2])])
  = 0.
Proof.
  pose proof (bridge_sites_enumerated _ _ _ _
                square_symmetric square_duplicate_free square_partition)
    as [Hm Hocc].
  split.
  - apply Hm. exists 0, 1. split_and!; [done| | |lia].
    + exists 2%Z. split; [done|lia].
    + exists [1; 3]. split; [done|left].
  - apply (Hocc 0 1); [lia|]. right. exists [0; 2]. split; [done|left].
Defined.

(** ** Hollow sites *)

(** A list is the sorted form of [l] exactly when it is a rearrangement of
    [l] in ascending order. *)
Lemma sorted_iff t l : t = sorted l ↔ t ≡ₚ l ∧ StronglySorted (≤) t.
Proof.
  split.
  - intros ->. split; [apply sorted_perm|apply sorted_strongly].
  - intros [Hp Hs]. apply (StronglySorted_unique (≤));
      [done|apply sorted_strongly|]. by rewrite sorted_perm.
Qed.

(** A sequence without repetition whose sites are all in ascending order
    holds no site twice, even when sites are compared after sorting. *)
Lemma no_repeated_site_intro (l : list site) :
  NoDup l → (∀ t, t ∈ l → StronglySorted (≤) t) → no_repeated_site l.
Proof.
  intros Hnd Hs i j t u Hi Hj Hp.
  assert (t = u) as ->.
  { apply (StronglySorted_unique (≤)); [| |done];
      apply Hs; by eapply list_elem_of_lookup_2. }
  by eapply NoDup_lookup.
Qed.

(** C3. The 3-fold enumeration returns exactly the triples that are the
    ascending rearrangement of a bridge pair [[a; b]] together with an atom
    [c] that is a surface neighbour of both [a] and [b]; no triple occurs
    twice, triples being compared after sorting. *)
Theorem hollow_sites_enumerated cl (nd : gmap nat (list nat)) surf sub :
  get_surface_neighbors cl nd = Some (surf, sub) →
  ∃ h, get_hollow_site_indices surf = Some h ∧ NoDup h ∧ no_repeated_site h ∧
    ∀ t, t ∈ h ↔
      ∃ a b c, [a; b] ∈ get_brige_site_indices surf ∧
               surface_neighbor surf a c ∧ surface_neighbor surf b c ∧
               t ≡ₚ [a; b; c] ∧ StronglySorted (≤) t.
Proof.
  intros Hrun.
  destruct (get_hollow_site_indices_spec Hrun) as (h & Hh & Hnd & Hm).
  assert (Hm' : ∀ t, t ∈ h ↔
      ∃ a b c, [a; b] ∈ get_brige_site_indices surf ∧
               surface_neighbor surf a c ∧ surface_neighbor surf b c ∧
               t ≡ₚ [a; b; c] ∧ StronglySorted (≤) t).
  { intros t. rewrite Hm. split.
    - intros (a & b & c & ? & ? & ? & [? ?]%sorted_iff). exists a, b, c. done.
    - intros (a & b & c & ? & ? & ? & Hp & Hs). exists a, b, c.
      split_and!; [done..|]. by apply sorted_iff. }
  exists h. split_and!; [done..| |done].
  apply no_repeated_site_intro; [done|].
  intros t (a & b & c & _ & _ & _ & _ & Hs)%Hm'. done.
Qed.

Lemma hollow_sites_enumerated_witness :
  ∃ h, get_hollow_site_indices [(0, [1; 2]); (1, [0; 2]); (2, [0; 1])] = Some h ∧
       NoDup h ∧ no_repeated_site h ∧ [0; 1; 2] ∈ h.
Proof.
  destruct (hollow_sites_enumerated _ _ _ _ triangle_partition)
    as (h & Hh & Hnd & Hrep & Hm).
  exists h. split_and!; [done..|]. apply Hm. exists 0, 1, 2. split_and!.
  - vm_compute. left.
  - exists [1; 2]. split; [done|right; left].
  - exists [0; 2]. split; [done|right; left].
  - reflexivity.
  - repeat constructor; lia.
Defined.

(** C2. The 4-fold enumeration returns exactly the quadruples that are the
    ascending rearrangement of [[a; b; c; d]] where [[a; b]] is the bridge
    pair at some position [i], [[c; d]] the bridge pair at a later position
    [j], the two pairs share no atom, [a] has exactly one surface neighbour
    among [c] and [d], so has [b], and these two atoms differ; no quadruple
    occurs twice, quadruples being compared after sorting. *)
Theorem four_fold_sites_enumerated cl (nd : gmap nat (list nat)) surf sub :
  get_surface_neighbors cl nd = Some (surf, sub) →
  ∃ f, get_four_fold_hollow_site surf = Some f ∧ NoDup f ∧ no_repeated_site f ∧
    ∀ q, q ∈ f ↔
      ∃ i j a b c d,
        i < j ∧
        get_brige_site_indices surf !! i = Some [a; b] ∧
        get_brige_site_indices surf !! j = Some [c; d] ∧
        share_no_atom [a; b] [c; d] ∧
        four_fold_accepts surf a b c d ∧
        q ≡ₚ [a; b; c; d] ∧ StronglySorted (≤) q.
Proof.
  intros Hrun.
  destruct (get_four_fold_hollow_site_spec Hrun) as (f & Hf & Hnd & Hm).
  assert (Hm' : ∀ q, q ∈ f ↔
      ∃ i j a b c d,
        i < j ∧
        get_brige_site_indices surf !! i = Some [a; b] ∧
        get_brige_site_indices surf !! j = Some [c; d] ∧
        share_no_atom [a; b] [c; d] ∧
        four_fold_accepts surf a b c d ∧
        q ≡ₚ [a; b; c; d] ∧ StronglySorted (≤) q).
  { intros q. rewrite Hm. split.
    - intros (i & j & a & b & c & d & ? & ? & ? & ? & ? & [? ?]%sorted_iff).
      exists i, j, a, b, c, d. done.
    - intros (i & j & a & b & c & d & ? & ? & ? & ? & ? & Hp & Hs).
      exists i, j, a, b, c, d. split_and!; [done..|]. by apply sorted_iff. }
  exists f. split_and!; [done..| |done].
  apply no_repeated_site_intro; [done|].
  intros q (i & j & a & b & c & d & _ & _ & _ & _ & _ & _ & Hs)%Hm'. done.
Qed.

Lemma four_fold_sites_enumerated_witness :
  ∃ f, get_four_fold_hollow_site
         [(0, [1; 3]); (1, [0; 2]); (2, [1; 3]); (3, [0; 2])] = Some f ∧
       NoDup f ∧ no_repeated_site f ∧ [0; 1; 2; 3] ∈ f.
Proof.
  destruct (four_fold_sites_enumerated _ _ _ _ square_partition)
    as (f & Hf & Hnd & Hrep & Hm).
  exists f. split_and!; [done..|]. apply Hm. exists 0, 3, 0, 1, 2, 3.
  split_and!; [lia|reflexivity|reflexivity| | |reflexivity|repeat constructor; lia].
  - intros w Hw Hw'.
    repeat (apply elem_of_cons in Hw as [->|Hw]);
      [| |by apply not_elem_of_nil in Hw];
      repeat (apply elem_of_cons in Hw' as [Hw'|Hw']; [discriminate Hw'|]);
      by apply not_elem_of_nil in Hw'.
  - exists 3, 2. split_and!; [| |done].
    + intros w. split.
      * intros [(l & [= <-] & Hl) Hw].
        repeat (apply elem_of_cons in Hw as [->|Hw]); try done.
        -- repeat (apply elem_of_cons in Hl as [Hl|Hl]; [discriminate Hl|]).
           by apply not_elem_of_nil in Hl.
        -- by apply not_elem_of_nil in Hw.
      * intros ->. split; [|right; left]. exists [1; 3]. split; [done|right; left].
    + intros w. split.
      * intros [(l & [= <-] & Hl) Hw].
        repeat (apply elem_of_cons in Hw as [->|Hw]); try done.
        -- repeat (apply elem_of_cons in Hl as [Hl|Hl]; [discriminate Hl|]).
           by apply not_elem_of_nil in Hl.
        -- by apply not_elem_of_nil in Hw.
      * intros ->. split; [|left]. exists [0; 2]. split; [done|right; left].
Defined.

(** ** Invariants of the results *)

Lemma sorted_fmap_fixed (l : list site) :
  (∀ s, s ∈ l → sorted s = s) → sorted <$> l = l.
Proof.
  induction l as [|s l IH]; intros H; simpl; [done|].
  rewrite H by left. f_equal. apply IH. intros t Ht. apply H. by right.
Qed.

Lemma sorted_pair a b : a < b → sorted [a; b] = [a; b].
Proof.
  intros Hlt. apply sorted_fixed. repeat constructor. lia.
Qed.

(** C5. When the neighbour sequences list each atom once, no result of the
    bridge, 3-fold or 4-fold enumeration holds the same tuple twice, tuples
    being compared after sorting: no two positions of a result hold tuples
    that are rearrangements of each other. *)
Theorem results_hold_no_duplicate cl (nd : gmap nat (list nat)) surf sub :
  duplicate_free nd →
  get_surface_neighbors cl nd = Some (surf, sub) →
  no_repeated_site (get_brige_site_indices surf) ∧
  (∃ h, get_hollow_site_indices surf = Some h ∧ no_repeated_site h) ∧
  (∃ f, get_four_fold_hollow_site surf = Some f ∧ no_repeated_site f).
Proof.
  intros Hdf Hrun. split_and!.
  - apply no_repeated_site_intro; [by apply (bridges_NoDup_run Hrun)|].
    intros s (a & b & -> & Hlt & _)%(elem_of_bridges_run Hrun).
    repeat constructor. lia.
  - destruct (get_hollow_site_indices_spec Hrun) as (h & Hh & Hnd & Hm).
    exists h. split; [done|]. apply no_repeated_site_intro; [done|].
    intros t (a & b & c & _ & _ & _ & ->)%Hm. apply sorted_strongly.
  - destruct (get_four_fold_hollow_site_spec Hrun) as (f & Hf & Hnd & Hm).
    exists f. split; [done|]. apply no_repeated_site_intro; [done|].
    intros q (i & j & a & b & c & d & _ & _ & _ & _ & _ & ->)%Hm.
    apply sorted_strongly.
Qed.

Lemma results_hold_no_duplicate_witness :
  no_repeated_site (get_brige_site_indices
                      [(0, [1; 3]); (1, [0; 2]); (2, [1; 3]); (3, [0; 2])]) ∧
  (∃ h, get_hollow_site_indices
          [(0, [1; 3]); (1, [0; 2]); (2, [1; 3]); (3, [0; 2])] = Some h ∧
        no_repeated_site h) ∧
  (∃ f, get_four_fold_hollow_site
          [(0, [1; 3]); (1, [0; 2]); (2, [1; 3]); (3, [0; 2])] = Some f ∧
        no_repeated_site f).
Proof.
  exact (results_hold_no_duplicate _ _ _ _
           square_duplicate_free square_partition).
Defined.

(** C9. Every atom of every emitted bridge pair, 3-fold triple and 4-fold
    quadruple is a surface atom: its coordination number is strictly below
    12. *)
Theorem emitted_atoms_are_surface cl (nd : gmap nat (list nat)) surf sub :
  get_surface_neighbors cl nd = Some (surf, sub) →
  ∃ h f,
    get_hollow_site_indices surf = Some h ∧
    get_four_fold_hollow_site surf = Some f ∧
    ∀ s i, s ∈ get_brige_site_indices surf ∨ s ∈ h ∨ s ∈ f → i ∈ s →
      ∃ c, cl !! i = Some c ∧ (c < 12)%Z.
Proof.
  intros Hrun.
  destruct (get_hollow_site_indices_spec Hrun) as (h & Hh & _ & Hmh).
  destruct (get_four_fold_hollow_site_spec Hrun) as (f & Hf & _ & Hmf).
  exists h, f. split_and!; [done..|].
  assert (Hbridge : ∀ a b, [a; b] ∈ get_brige_site_indices surf →
            is_surface cl a ∧ is_surface cl b).
  { intros a b (a' & b' & [= <- <-] & _ & Hab)%(elem_of_bridges_run Hrun).
    apply (surface_neighbor_iff Hrun) in Hab as (? & ? & _). done. }
  intros s i [Hs|[Hs|Hs]] Hi.
  - pose proof Hs as (a & b & -> & _)%(elem_of_bridges_run Hrun).
    destruct (Hbridge a b Hs) as [Ha Hb].
    repeat (apply elem_of_cons in Hi as [->|Hi]); try done.
    by apply not_elem_of_nil in Hi.
  - apply Hmh in Hs as (a & b & c & Hab & Hac & _ & ->).
    destruct (Hbridge a b Hab) as [Ha Hb].
    apply (surface_neighbor_iff Hrun) in Hac as (_ & Hc & _).
    rewrite elem_of_sorted in Hi.
    repeat (apply elem_of_cons in Hi as [->|Hi]); try done.
    by apply not_elem_of_nil in Hi.
  - apply Hmf in Hs as (n & m & a & b & c & d & _ & Hab & Hcd & _ & _ & ->).
    apply list_elem_of_lookup_2 in Hab, Hcd.
    destruct (Hbridge a b Hab) as [Ha Hb]. destruct (Hbridge c d Hcd) as [Hc Hd].
    rewrite elem_of_sorted in Hi.
    repeat (apply elem_of_cons in Hi as [->|Hi]); try done.
    by apply not_elem_of_nil in Hi.
Qed.

Lemma emitted_atoms_are_surface_witness :
  ∃ h f,
    get_hollow_site_indices [(0, [1; 2]); (1, [0; 2]); (2, [0; 1])] = Some h ∧
    get_four_fold_hollow_site [(0, [1; 2]); (1, [0; 2]); (2, [0; 1])] = Some f ∧
    ∀ s i, s ∈ get_brige_site_indices [(0, [1; 2]); (1, [0; 2]); (2, [0; 1])]
           ∨ s ∈ h ∨ s ∈ f → i ∈ s →
      ∃ c, triangle_coordination !! i = Some c ∧ (c < 12)%Z.
Proof. exact (emitted_atoms_are_surface _ _ _ _ triangle_partition). Defined.

Lemma sorted_eq l k : l ≡ₚ k → StronglySorted (≤) k → sorted l = k.
Proof.
  intros Hp Hk. rewrite (sorted_perm_eq l k Hp). by apply sorted_fixed.
Qed.

Lemma sorted_triple a b c :
  a < b → c ≠ a → c ≠ b →
  ∃ x y z, sorted [a; b; c] = [x; y; z] ∧ x < y ∧ y < z ∧ [x; y; z] ≡ₚ [a; b; c].
Proof.
  intros Hab Hca Hcb.
  destruct (decide (c < a)); [|destruct (decide (c < b))].
  - exists c, a, b. assert (Hp : [a; b; c] ≡ₚ [c; a; b]).
    { apply (Permutation_app_comm [a; b] [c]). }
    split_and!; [|lia|lia|done].
    apply sorted_eq; [done|]. repeat constructor; lia.
  - exists a, c, b. assert (Hp : [a; b; c] ≡ₚ [a; c; b]).
    { constructor. apply perm_swap. }
    split_and!; [|lia|lia|done].
    apply sorted_eq; [done|]. repeat constructor; lia.
  - exists a, b, c. split_and!; [|lia|lia|done].
    apply sorted_eq; [done|]. repeat constructor; lia.
Qed.

(** C10. For a symmetric neighbour graph in which no atom is its own
    neighbour, every emitted 3-fold triple is strictly increasing and any
    two of its atoms are surface neighbours of each other. *)
Theorem hollow_triples_are_triangles cl (nd : gmap nat (list nat)) surf sub :
  symmetric nd → irreflexive nd →
  get_surface_neighbors cl nd = Some (surf, sub) →
  ∃ h, get_hollow_site_indices surf = Some h ∧
    ∀ t, t ∈ h →
      ∃ x y z, t = [x; y; z] ∧ x < y ∧ y < z ∧
        surface_neighbor surf x y ∧ surface_neighbor surf y x ∧
        surface_neighbor surf x z ∧ surface_neighbor surf z x ∧
        surface_neighbor surf y z ∧ surface_neighbor surf z y.
Proof.
  intros Hsym Hirr Hrun.
  destruct (get_hollow_site_indices_spec Hrun) as (h & Hh & _ & Hm).
  exists h. split; [done|].
  intros t (a & b & c & Hab & Hac & Hbc & ->)%Hm.
  apply (elem_of_bridges_run Hrun) in Hab as (a' & b' & [= <- <-] & Hlt & Hab).
  assert (Hadj : ∀ u v, u ∈ [a; b; c] → v ∈ [a; b; c] → u ≠ v →
            surface_neighbor surf u v).
  { pose proof (surface_neighbor_sym Hrun _ _ Hsym Hab).
    pose proof (surface_neighbor_sym Hrun _ _ Hsym Hac).
    pose proof (surface_neighbor_sym Hrun _ _ Hsym Hbc).
    intros u v Hu Hv Hne.
    repeat (apply elem_of_cons in Hu as [->|Hu]);
      [| | |by apply not_elem_of_nil in Hu];
      repeat (apply elem_of_cons in Hv as [->|Hv]);
      try done; by apply not_elem_of_nil in Hv. }
  assert (Hca : c ≠ a).
  { intros ->. by apply (surface_neighbor_irrefl Hrun a Hirr). }
  assert (Hcb : c ≠ b).
  { intros ->. by apply (surface_neighbor_irrefl Hrun b Hirr). }
  destruct (sorted_triple a b c Hlt Hca Hcb) as (x & y & z & -> & Hxy & Hyz & Hp).
  exists x, y, z. split_and!; try done;
    apply Hadj; rewrite <- ?Hp; try lia; set_solver.
Qed.

Lemma hollow_triples_are_triangles_witness :
  ∃ h, get_hollow_site_indices [(0, [1; 2]); (1, [0; 2]); (2, [0; 1])] = Some h ∧
    ∀ t, t ∈ h →
      ∃ x y z, t = [x; y; z] ∧ x < y ∧ y < z ∧
        surface_neighbor [(0, [1; 2]); (1, [0; 2]); (2, [0; 1])] x y ∧
        surface_neighbor [(0, [1; 2]); (1, [0; 2]); (2, [0; 1])] y x ∧
        surface_neighbor [(0, [1; 2]); (1, [0; 2]); (2, [0; 1])] x z ∧
        surface_neighbor [(0, [1; 2]); (1, [0; 2]); (2, [0; 1])] z x ∧
        surface_neighbor [(0, [1; 2]); (1, [0; 2]); (2, [0; 1])] y z ∧
        surface_neighbor [(0, [1; 2]); (1, [0; 2]); (2, [0; 1])] z y.
Proof.
  exact (hollow_triples_are_triangles _ _ _ _
           triangle_symmetric triangle_irreflexive triangle_partition).
Defined.

(** ** The two scenarios *)

Lemma where_lt_12_all cl :
  Forall (λ c, (c < 12)%Z) cl → where_lt_12 cl = seq 0 (length cl).
Proof.
  intros Hall. unfold where_lt_12.
  assert (H : ∀ i, i ∈ seq 0 (length cl) → is_surface cl i).
  { intros i [_ Hi]%elem_of_seq.
    destruct (lookup_lt_is_Some_2 cl i) as [c Hc]; [lia|].
    exists c. split; [done|]. by apply (Forall_lookup_1 _ _ _ _ Hall Hc). }
  revert H. generalize (seq 0 (length cl)) as l.
  induction l as [|i l IH]; intros H; [done|].
  rewrite filter_cons_True by (apply H; left).
  f_equal. apply IH. intros j Hj. apply H. by right.
Qed.

Lemma pair_orders (l : list nat) x y : l ≡ₚ [x; y] → l = [x; y] ∨ l = [y; x].
Proof. intros Hp. symmetry in Hp. by apply Permutation_length_2_inv in Hp. Qed.

Lemma square_facet_input_holds :
  square_facet_input square_coordination square_neighbors.
Proof.
  split_and!; [done|repeat constructor; lia|].
  exists [1; 3], [0; 2], [1; 3], [0; 2]. split_and!; done.
Qed.

Lemma triangular_facet_input_holds :
  triangular_facet_input triangle_coordination triangle_neighbors.
Proof.
  split_and!; [done|repeat constructor; lia|].
  exists [1; 2], [0; 2], [0; 1]. split_and!; done.
Qed.

(** C6. On the square facet 0-1-2-3, whatever the coordination numbers
    below 12 and the order of the neighbour sequences, the bridge enumeration
    yields the four sides, each once, the 3-fold enumeration yields nothing
    and the 4-fold enumeration yields the single site [[0; 1; 2; 3]]. *)
Theorem square_facet_sites cl (nd : gmap nat (list nat)) :
  square_facet_input cl nd →
  ∃ surf sub,
    get_surface_neighbors cl nd = Some (surf, sub) ∧
    keys surf = [0; 1; 2; 3] ∧
    get_brige_site_indices surf = [[0; 1]; [0; 3]; [1; 2]; [2; 3]] ∧
    get_brige_site_indices surf ≡ₚ [[0; 1]; [1; 2]; [2; 3]; [0; 3]] ∧
    get_hollow_site_indices surf = Some [] ∧
    get_four_fold_hollow_site surf = Some [[0; 1; 2; 3]].
Proof.
  intros (Hlen & Hall & l0 & l1 & l2 & l3 & H0 & H1 & H2 & H3 & P0 & P1 & P2 & P3).
  assert (E : where_lt_12 cl = [0; 1; 2; 3]).
  { by rewrite where_lt_12_all, Hlen. }
  eexists _, _. split.
  { apply get_surface_neighbors_Some. split; [|split; reflexivity].
    rewrite E. intros i Hi. list_cases Hi; eauto. }
  rewrite E. cbn [fmap list_fmap]. rewrite H0, H1, H2, H3.
  assert (Hperm : [[0; 1]; [0; 3]; [1; 2]; [2; 3]] ≡ₚ [[0; 1]; [1; 2]; [2; 3]; [0; 3]]).
  { constructor. apply (Permutation_app_comm [[0; 3]] [[1; 2]; [2; 3]]). }
  apply pair_orders in P0 as [-> | ->], P1 as [-> | ->],
    P2 as [-> | ->], P3 as [-> | ->];
    (split_and!; [vm_compute; reflexivity ..| |vm_compute; reflexivity
                 |vm_compute; reflexivity]);
    (etrans; [|exact Hperm]); vm_compute; reflexivity.
Qed.

Lemma square_facet_sites_witness :
  ∃ surf sub,
    get_surface_neighbors square_coordination square_neighbors
      = Some (surf, sub) ∧
    keys surf = [0; 1; 2; 3] ∧
    get_brige_site_indices surf = [[0; 1]; [0; 3]; [1; 2]; [2; 3]] ∧
    get_brige_site_indices surf ≡ₚ [[0; 1]; [1; 2]; [2; 3]; [0; 3]] ∧
    get_hollow_site_indices surf = Some [] ∧
    get_four_fold_hollow_site surf = Some [[0; 1; 2; 3]].
Proof. exact (square_facet_sites _ _ square_facet_input_holds). Defined.

(** C7. On the triangular facet 0-1-2, whatever the coordination numbers
    below 12 and the order of the neighbour sequences, the bridge enumeration
    yields the three sides, each once, the 3-fold enumeration yields the
    single site [[0; 1; 2]] and the 4-fold enumeration yields nothing. *)
Theorem triangular_facet_sites cl (nd : gmap nat (list nat)) :
  triangular_facet_input cl nd →
  ∃ surf sub,
    get_surface_neighbors cl nd = Some (surf, sub) ∧
    keys surf = [0; 1; 2] ∧
    get_brige_site_indices surf = [[0; 1]; [0; 2]; [1; 2]] ∧
    get_hollow_site_indices surf = Some [[0; 1; 2]] ∧
    get_four_fold_hollow_site surf = Some [].
Proof.
  intros (Hlen & Hall & l0 & l1 & l2 & H0 & H1 & H2 & P0 & P1 & P2).
  assert (E : where_lt_12 cl = [0; 1; 2]).
  { by rewrite where_lt_12_all, Hlen. }
  eexists _, _. split.
  { apply get_surface_neighbors_Some. split; [|split; reflexivity].
    rewrite E. intros i Hi. list_cases Hi; eauto. }
  rewrite E. cbn [fmap list_fmap]. rewrite H0, H1, H2.
  apply pair_orders in P0 as [-> | ->], P1 as [-> | ->], P2 as [-> | ->];
    split_and!; vm_compute; reflexivity.
Qed.

Lemma triangular_facet_sites_witness :
  ∃ surf sub,
    get_surface_neighbors triangle_coordination triangle_neighbors
      = Some (surf, sub) ∧
    keys surf = [0; 1; 2] ∧
    get_brige_site_indices surf = [[0; 1]; [0; 2]; [1; 2]] ∧
    get_hollow_site_indices surf = Some [[0; 1; 2]] ∧
    get_four_fold_hollow_site surf = Some [].
Proof. exact (triangular_facet_sites _ _ triangular_facet_input_holds). Defined.

(** * Further properties of the notebook's functions *)

(** ** When the partition raises *)

(** X1. [get_surface_neighbors] raises exactly when the neighbour graph has
    no entry for some atom whose coordination number is below 12; entries of
    the other atoms are never looked up. *)
Theorem partition_raises_iff cl (nd : gmap nat (list nat)) :
  get_surface_neighbors cl nd = None ↔
  ∃ i c, cl !! i = Some c ∧ (c < 12)%Z ∧ nd !! i = None.
Proof.
  pose proof (get_surface_neighbors_total cl nd) as Htot. split.
  - intros Hnone.
    destruct (decide (Forall (λ i, is_Some (nd !! i)) (where_lt_12 cl)))
      as [Hall|Hex].
    + rewrite Forall_forall in Hall. setoid_rewrite elem_of_where_lt_12 in Hall.
      apply Htot in Hall as [r Hr]. congruence.
    + apply not_Forall_Exists in Hex; [|apply _].
      apply Exists_exists in Hex as (i & (c & Hc & Hlt)%elem_of_where_lt_12 & Hi).
      exists i, c. split_and!; [done..|]. simpl in Hi.
      by destruct (nd !! i); [exfalso; apply Hi|].
  - intros (i & c & Hc & Hlt & Hi).
    destruct (get_surface_neighbors cl nd) as [r|] eqn:Hr; [|done].
    assert (Hs : is_Some (nd !! i)).
    { apply Htot; [eauto|]. by exists c. }
    rewrite Hi in Hs. by destruct Hs.
Qed.

(** ** Common surface neighbours *)

Lemma StronglySorted_filter {A} (R : relation A) (P : A → Prop)
    `{∀ x, Decision (P x)} l :
  StronglySorted R l → StronglySorted R (filter P l).
Proof.
  induction 1 as [|x l Hl IH Hx]; [constructor|].
  rewrite filter_cons. case_decide; [|done].
  constructor; [done|]. apply Forall_forall.
  intros y [_ Hy]%list_elem_of_filter. by eapply Forall_forall in Hx.
Qed.

Lemma intersect1d_sorted x y : StronglySorted (≤) (intersect1d x y).
Proof. apply StronglySorted_filter, sorted_strongly. Qed.

Lemma StronglySorted_le_NoDup_lt (l : list nat) :
  StronglySorted (≤) l → NoDup l → StronglySorted (<) l.
Proof.
  induction 1 as [|x l Hl IH Hx]; [constructor|].
  intros [Hn Hnd]%NoDup_cons. constructor; [auto|].
  apply Forall_forall. intros y Hy. eapply Forall_forall in Hx; [|done].
  assert (x ≠ y) by (intros ->; done). lia.
Qed.

Lemma intersect1d_perm x x' y y' :
  x ≡ₚ x' → y ≡ₚ y' → intersect1d x y = intersect1d x' y'.
Proof.
  intros Hx Hy. apply (StronglySorted_unique (≤)); try apply intersect1d_sorted.
  apply NoDup_Permutation; try apply NoDup_intersect1d.
  intros w. rewrite !elem_of_intersect1d. by rewrite Hx, Hy.
Qed.

Lemma intersect1d_comm x y : intersect1d x y = intersect1d y x.
Proof.
  apply (StronglySorted_unique (≤)); try apply intersect1d_sorted.
  apply NoDup_Permutation; try apply NoDup_intersect1d.
  intros w. rewrite !elem_of_intersect1d. tauto.
Qed.

Lemma common_indices_None d a b :
  get_surface_common_indices d a b = None ↔ a ∉ keys d ∨ b ∉ keys d.
Proof.
  unfold get_surface_common_indices. rewrite <- !dict_get_is_key.
  destruct (dict_get d a) as [na|], (dict_get d b) as [nb|]; simpl.
  - split; [done|]. intros [H|H]; exfalso; apply H; eauto.
  - split; [|done]. intros _. right. by intros [? ?].
  - split; [|done]. intros _. left. by intros [? ?].
  - split; [|done]. intros _. left. by intros [? ?].
Qed.

(** X2. [get_surface_common_indices] does not depend on the order of its
    two arguments, neither in the atoms it returns nor in whether it
    raises. *)
Theorem common_indices_comm d a b :
  get_surface_common_indices d a b = get_surface_common_indices d b a.
Proof.
  unfold get_surface_common_indices.
  destruct (dict_get d a) as [na|], (dict_get d b) as [nb|]; simpl; try done.
  by rewrite intersect1d_comm.
Qed.

(** X3. [get_surface_common_indices] raises exactly when one of the two
    atoms is not a key of the surface dictionary; otherwise it returns, in
    strictly increasing order, the atoms that both list as a surface
    neighbour. *)
Theorem common_indices_result d a b :
  (get_surface_common_indices d a b = None ↔ a ∉ keys d ∨ b ∉ keys d) ∧
  ∀ r, get_surface_common_indices d a b = Some r →
    StronglySorted (<) r ∧
    ∀ w, w ∈ r ↔ surface_neighbor d a w ∧ surface_neighbor d b w.
Proof.
  unfold get_surface_common_indices, surface_neighbor.
  rewrite <- !dict_get_is_key.
  destruct (dict_get d a) as [na|], (dict_get d b) as [nb|]; simpl; split.
  - split; [done|]. intros [H|H]; exfalso; apply H; eauto.
  - intros r [= <-]. split.
    + apply StronglySorted_le_NoDup_lt;
        [apply intersect1d_sorted|apply NoDup_intersect1d].
    + intros w. rewrite elem_of_intersect1d. split.
      * intros [? ?]. split; eexists; eauto.
      * intros [(l & [= <-] & ?) (l' & [= <-] & ?)]. done.
  - split; [|done]. intros _. right. by intros [? ?].
  - done.
  - split; [|done]. intros _. left. by intros [? ?].
  - done.
  - split; [|done]. intros _. left. by intros [? ?].
  - done.
Qed.

Lemma common_indices_result_witness :
  StronglySorted (<) [1; 3] ∧
  ∀ w, w ∈ [1; 3] ↔
    surface_neighbor [(0, [3; 1; 1]); (2, [1; 3; 5])] 0 w ∧
    surface_neighbor [(0, [3; 1; 1]); (2, [1; 3; 5])] 2 w.
Proof.
  exact (proj2 (common_indices_result [(0, [3; 1; 1]); (2, [1; 3; 5])] 0 2)
           [1; 3] eq_refl).
Defined.

(** ** Order of the bridge pairs *)

Lemma StronglySorted_lookup_lt {A} (R : relation A) (l : list A) i j x y :
  StronglySorted R l → i < j → l !! i = Some x → l !! j = Some y → R x y.
Proof.
  intros Hl. revert i j. induction Hl as [|z l Hl IH Hz]; intros i j Hlt Hi Hj.
  - done.
  - destruct j as [|j]; [lia|]. simpl in Hj. destruct i as [|i].
    + injection Hi as ->. eapply Forall_forall in Hz; [done|].
      by eapply list_elem_of_lookup_2.
    + simpl in Hi. apply (IH i j); [lia|done..].
Qed.

Lemma bridges_of_entry_sorted e : StronglySorted pair_le (bridges_of_entry e).
Proof.
  unfold bridges_of_entry.
  apply (StronglySorted_fmap _ (≤) pair_le).
  - intros b b' Hb. simpl. right. done.
  - apply StronglySorted_filter, sorted_strongly.
Qed.

Lemma bridges_sorted d :
  StronglySorted (<) (keys d) → StronglySorted pair_le (get_brige_site_indices d).
Proof.
  rewrite get_brige_site_indices_bind. unfold keys.
  induction d as [|[a l] d IH]; intros Hk; [constructor|].
  apply StronglySorted_cons in Hk as [Ha Hk]. simpl in *.
  change (((a, l) :: d) ≫= bridges_of_entry)
    with (bridges_of_entry (a, l) ++ (d ≫= bridges_of_entry)).
  apply StronglySorted_app. split_and!;
    [|apply bridges_of_entry_sorted|by apply IH].
  intros s t (b & -> & _)%elem_of_bridges_of_entry
    ([a' l'] & (b' & -> & _)%elem_of_bridges_of_entry & Hin)%list_elem_of_bind.
  simpl. left. eapply Forall_forall in Ha; [done|].
  by apply (list_elem_of_fmap_2 fst _ (a', l')).
Qed.

(** X4. The bridge pairs are listed in dictionary order: a pair that comes
    earlier in the result has the smaller first atom or, with equal first
    atoms, a second atom that is not larger. *)
Theorem bridge_pairs_in_order cl (nd : gmap nat (list nat)) surf sub :
  get_surface_neighbors cl nd = Some (surf, sub) →
  ∀ i j a b c d,
    i < j →
    get_brige_site_indices surf !! i = Some [a; b] →
    get_brige_site_indices surf !! j = Some [c; d] →
    a < c ∨ (a = c ∧ b ≤ d).
Proof.
  intros Hrun i j a b c d Hlt Hi Hj.
  assert (Hs : StronglySorted pair_le (get_brige_site_indices surf)).
  { apply bridges_sorted. rewrite (surf_keys Hrun). apply where_lt_12_increasing. }
  apply (StronglySorted_lookup_lt _ _ _ _ _ _ Hs Hlt Hi Hj).
Qed.

Lemma bridge_pairs_in_order_witness : 0 < 1 ∨ (0 = 1 ∧ 3 ≤ 2).
Proof.
  apply (bridge_pairs_in_order _ _ _ _ square_partition 1 2 0 3 1 2);
    [lia|reflexivity|reflexivity].
Defined.

(** ** Shape of the 4-fold sites *)

Lemma sorted_NoDup_increasing l :
  NoDup l → StronglySorted (<) (sorted l).
Proof.
  intros Hl. apply StronglySorted_le_NoDup_lt; [apply sorted_strongly|].
  by apply NoDup_sorted.
Qed.

Lemma disjoint_bridges_NoDup a b c d :
  a < b → c < d → share_no_atom [a; b] [c; d] → NoDup [a; b; c; d].
Proof.
  intros Hab Hcd Hs.
  assert (a ∉ [c; d]) by (apply Hs; left).
  assert (b ∉ [c; d]) by (apply Hs; right; left).
  repeat (apply NoDup_cons; split); try apply NoDup_nil_2;
    rewrite ?not_elem_of_cons in *; try (split_and!; try lia; try tauto);
    try apply not_elem_of_nil.
Qed.

(** X5. Every 4-fold site is a list of four different atoms in strictly
    increasing order. *)
Theorem four_fold_sites_increasing cl (nd : gmap nat (list nat)) surf sub :
  get_surface_neighbors cl nd = Some (surf, sub) →
  ∃ f, get_four_fold_hollow_site surf = Some f ∧
    ∀ q, q ∈ f → ∃ w x y z, q = [w; x; y; z] ∧ w < x ∧ x < y ∧ y < z.
Proof.
  intros Hrun.
  destruct (get_four_fold_hollow_site_spec Hrun) as (f & Hf & _ & Hm).
  exists f. split; [done|].
  intros q (i & j & a & b & c & d & _ & Hi & Hj & Hs & _ & ->)%Hm.
  apply list_elem_of_lookup_2, (elem_of_bridges_run Hrun) in Hi, Hj.
  destruct Hi as (? & ? & [= <- <-] & Hab & _).
  destruct Hj as (? & ? & [= <- <-] & Hcd & _).
  pose proof (disjoint_bridges_NoDup a b c d Hab Hcd Hs) as Hnd.
  pose proof (sorted_NoDup_increasing _ Hnd) as Hinc.
  pose proof (Permutation_length (sorted_perm [a; b; c; d])) as Hlen.
  destruct (sorted [a; b; c; d]) as [|w [|x [|y [|z [|? ?]]]]]; try done.
  exists w, x, y, z. split; [done|].
  apply StronglySorted_cons in Hinc as [Hw Hinc].
  apply StronglySorted_cons in Hinc as [Hx Hinc].
  apply StronglySorted_cons in Hinc as [Hy _].
  apply Forall_cons in Hw as [? _]. apply Forall_cons in Hx as [? _].
  apply Forall_cons in Hy as [? _]. done.
Qed.

Lemma four_fold_sites_increasing_witness :
  ∃ f, get_four_fold_hollow_site
         [(0, [1; 3]); (1, [0; 2]); (2, [1; 3]); (3, [0; 2])] = Some f ∧
    ∀ q, q ∈ f → ∃ w x y z, q = [w; x; y; z] ∧ w < x ∧ x < y ∧ y < z.
Proof. exact (four_fold_sites_increasing _ _ _ _ square_partition). Defined.

(** ** 4-fold sites are the chordless squares of the surface graph *)

Lemma NoDup_four (p q r s : nat) :
  NoDup [p; q; r; s] ↔ p ≠ q ∧ p ≠ r ∧ p ≠ s ∧ q ≠ r ∧ q ≠ s ∧ r ≠ s.
Proof.
  rewrite !NoDup_cons, !not_elem_of_cons. split.
  - intros ((? & ? & ? & _) & (? & ? & _) & (? & _) & _). done.
  - intros (? & ? & ? & ? & ? & ?).
    split_and!; try done; try apply not_elem_of_nil. apply NoDup_nil_2.
Qed.

Lemma perm_pairs (a b c e p q r s : nat) :
  (a = p ∧ b = q ∨ a = q ∧ b = p) → (c = r ∧ e = s ∨ c = s ∧ e = r) →
  [a; b; c; e] ≡ₚ [p; q; r; s].
Proof.
  intros [[-> ->]|[-> ->]] [[-> ->]|[-> ->]].
  - done.
  - do 2 apply perm_skip. apply perm_swap.
  - apply perm_swap.
  - etrans; [apply perm_swap|]. do 2 apply perm_skip. apply perm_swap.
Qed.

Lemma square_rotate d p q r s :
  chordless_square d p q r s → chordless_square d r s p q.
Proof.
  intros (Hnd & Hpq & Hqr & Hrs & Hsp & Hpr & Hrp & Hqs & Hsq).
  split_and!; try done.
  by rewrite (Permutation_app_comm [r; s] [p; q]).
Qed.

Lemma accepts_of_square d p q r s a b c e :
  chordless_square d p q r s →
  (a = p ∧ b = q ∨ a = q ∧ b = p) → (c = r ∧ e = s ∨ c = s ∧ e = r) →
  four_fold_accepts d a b c e.
Proof.
  intros (Hnd & [Hpq Hqp] & [Hqr Hrq] & [Hrs Hsr] & [Hsp Hps] & Hpr & Hrp & Hqs & Hsq)
    Hab Hce.
  apply NoDup_four in Hnd as (? & ? & ? & ? & ? & ?).
  assert (Hin : ∀ w, w ∈ [c; e] ↔ w = r ∨ w = s).
  { intros w. rewrite !elem_of_cons, elem_of_nil.
    destruct Hce as [[-> ->]|[-> ->]]; tauto. }
  assert (Hp : ∀ w, surface_neighbor d p w ∧ w ∈ [c; e] ↔ w = s).
  { intros w. rewrite Hin. split; [|by intros ->; auto].
    intros [Hw [-> | ->]]; done. }
  assert (Hq : ∀ w, surface_neighbor d q w ∧ w ∈ [c; e] ↔ w = r).
  { intros w. rewrite Hin. split; [|by intros ->; auto].
    intros [Hw [-> | ->]]; done. }
  destruct Hab as [[-> ->]|[-> ->]].
  - exists s, r. split_and!; [done..|]. congruence.
  - exists r, s. split_and!; done.
Qed.

Section squares.
Context {coordination_list : list Z} {neighbor_dict : gmap nat (list nat)}.
Context {surf sub : dict}.
Hypothesis Hrun :
  get_surface_neighbors coordination_list neighbor_dict = Some (surf, sub).
Hypothesis Hsym : symmetric neighbor_dict.

Lemma adjacent_intro a b : surface_neighbor surf a b → adjacent surf a b.
Proof. intros H. split; [done|]. by apply (surface_neighbor_sym Hrun). Qed.

Lemma bridge_of_adjacent p q :
  surface_neighbor surf p q → p ≠ q →
  ∃ a b, [a; b] ∈ get_brige_site_indices surf ∧
         (a = p ∧ b = q ∨ a = q ∧ b = p).
Proof.
  intros Hpq Hne. destruct (decide (p < q)).
  - exists p, q. split; [|auto]. apply (elem_of_bridges_run Hrun). eauto.
  - exists q, p. split; [|auto]. apply (elem_of_bridges_run Hrun).
    exists q, p. split_and!; [done|lia|]. by apply (surface_neighbor_sym Hrun).
Qed.

Lemma accepted_is_square a b c d :
  [a; b] ∈ get_brige_site_indices surf →
  [c; d] ∈ get_brige_site_indices surf →
  share_no_atom [a; b] [c; d] → four_fold_accepts surf a b c d →
  ∃ p q r s, chordless_square surf p q r s ∧ [a; b; c; d] ≡ₚ [p; q; r; s].
Proof.
  intros (? & ? & [= <- <-] & Hab & Hsab)%(elem_of_bridges_run Hrun)
    (? & ? & [= <- <-] & Hcd & Hscd)%(elem_of_bridges_run Hrun)
    Hdis (x & y & Hx & Hy & Hxy).
  pose proof (disjoint_bridges_NoDup a b c d Hab Hcd Hdis) as Hnd.
  destruct (proj2 (Hx x) eq_refl) as [Hax Hxin].
  destruct (proj2 (Hy y) eq_refl) as [Hby Hyin].
  assert (Hay : ¬ surface_neighbor surf a y).
  { intros H. apply Hxy. symmetry. apply Hx. done. }
  assert (Hbx : ¬ surface_neighbor surf b x).
  { intros H. apply Hxy. apply Hy. done. }
  assert (Hcases : (x = c ∧ y = d) ∨ (x = d ∧ y = c)).
  { rewrite !elem_of_cons, elem_of_nil in Hxin, Hyin.
    destruct Hxin as [->|[->|Hf]], Hyin as [->|[->|Hf']]; auto; done. }
  assert (Hyx : adjacent surf y x).
  { destruct Hcases as [[-> ->]|[-> ->]].
    - split; [by apply (surface_neighbor_sym Hrun)|done].
    - by apply adjacent_intro. }
  exists a, b, y, x. split.
  - split_and!.
    + eapply NoDup_Permutation_proper; [|exact Hnd].
      destruct Hcases as [[-> ->]|[-> ->]];
        [do 2 apply perm_skip; apply perm_swap|done].
    + by apply adjacent_intro.
    + by apply adjacent_intro.
    + done.
    + split; [by apply (surface_neighbor_sym Hrun)|done].
    + done.
    + intros H. by apply Hay, (surface_neighbor_sym Hrun).
    + done.
    + intros H. by apply Hbx, (surface_neighbor_sym Hrun).
  - destruct Hcases as [[-> ->]|[-> ->]];
      [do 2 apply perm_skip; apply perm_swap|done].
Qed.

Lemma square_is_accepted p q r s :
  chordless_square surf p q r s →
  ∃ i j a b c d,
    i < j ∧
    get_brige_site_indices surf !! i = Some [a; b] ∧
    get_brige_site_indices surf !! j = Some [c; d] ∧
    share_no_atom [a; b] [c; d] ∧
    four_fold_accepts surf a b c d ∧
    [a; b; c; d] ≡ₚ [p; q; r; s].
Proof.
  intros Hsq. pose proof Hsq as (Hnd & [Hpq _] & _ & [Hrs _] & _).
  pose proof Hnd as (? & ? & ? & ? & ? & ?)%NoDup_four.
  destruct (bridge_of_adjacent p q Hpq) as (a & b & Hab & Eab); [done|].
  destruct (bridge_of_adjacent r s Hrs) as (c & d & Hcd & Ecd); [done|].
  pose proof (perm_pairs _ _ _ _ _ _ _ _ Eab Ecd) as Hperm.
  assert (Hnd' : NoDup [a; b; c; d]) by by rewrite Hperm.
  pose proof Hnd' as (? & ? & ? & ? & ? & ?)%NoDup_four.
  apply list_elem_of_lookup in Hab as [i Hi], Hcd as [j Hj].
  assert (i ≠ j) by (intros ->; congruence).
  destruct (decide (i < j)).
  - exists i, j, a, b, c, d. split_and!; try done.
    + intros w. rewrite !elem_of_cons, !elem_of_nil. naive_solver.
    + by eapply accepts_of_square.
  - exists j, i, c, d, a, b. split_and!; try done; [lia| | |].
    + intros w. rewrite !elem_of_cons, !elem_of_nil. naive_solver.
    + eapply accepts_of_square; [by apply square_rotate|done..].
    + rewrite <- Hperm. apply (Permutation_app_comm [c; d] [a; b]).
Qed.
End squares.

(** X6. For a symmetric neighbour graph, the 4-fold sites are exactly the
    chordless squares of the surface graph: a sorted quadruple is emitted if
    and only if its four atoms are different and can be arranged in a closed
    chain p-q-r-s-p of surface neighbours whose diagonals p-r and q-s are
    not surface neighbours. *)
Theorem four_fold_sites_are_chordless_squares
    cl (nd : gmap nat (list nat)) surf sub :
  symmetric nd →
  get_surface_neighbors cl nd = Some (surf, sub) →
  ∃ f, get_four_fold_hollow_site surf = Some f ∧
    ∀ t, t ∈ f ↔
      ∃ p q r s, chordless_square surf p q r s ∧ t = sorted [p; q; r; s].
Proof.
  intros Hsym Hrun.
  destruct (get_four_fold_hollow_site_spec Hrun) as (f & Hf & _ & Hm).
  exists f. split; [done|]. intros t. rewrite Hm. split.
  - intros (i & j & a & b & c & d & _ & Hi & Hj & Hdis & Hacc & ->).
    apply list_elem_of_lookup_2 in Hi, Hj.
    destruct (accepted_is_square Hrun Hsym a b c d Hi Hj Hdis Hacc)
      as (p & q & r & s & Hsq & Hperm).
    exists p, q, r, s. split; [done|]. by apply sorted_perm_eq.
  - intros (p & q & r & s & Hsq & ->).
    destruct (square_is_accepted Hrun Hsym p q r s Hsq)
      as (i & j & a & b & c & d & Hlt & Hi & Hj & Hdis & Hacc & Hperm).
    exists i, j, a, b, c, d. split_and!; try done.
    symmetry. by apply sorted_perm_eq.
Qed.

Lemma four_fold_sites_are_chordless_squares_witness :
  ∃ f, get_four_fold_hollow_site
         [(0, [1; 3]); (1, [0; 2]); (2, [1; 3]); (3, [0; 2])] = Some f ∧
    ∀ t, t ∈ f ↔
      ∃ p q r s,
        chordless_square [(0, [1; 3]); (1, [0; 2]); (2, [1; 3]); (3, [0; 2])]
          p q r s ∧ t = sorted [p; q; r; s].
Proof.
  exact (four_fold_sites_are_chordless_squares _ _ _ _
           square_symmetric square_partition).
Defined.

(** ** 3-fold sites are the triangles of the bridge pairs *)

(** X7. For a symmetric neighbour graph without self-neighbours, the 3-fold
    sites are exactly the triangles made of bridge pairs: [[x; y; z]] is
    emitted if and only if [x < y < z] and [[x; y]], [[x; z]] and [[y; z]]
    are all bridge pairs. *)
Theorem hollow_sites_are_bridge_triangles cl (nd : gmap nat (list nat)) surf sub :
  symmetric nd → irreflexive nd →
  get_surface_neighbors cl nd = Some (surf, sub) →
  ∃ h, get_hollow_site_indices surf = Some h ∧
    ∀ t, t ∈ h ↔
      ∃ x y z, t = [x; y; z] ∧ x < y ∧ y < z ∧
        [x; y] ∈ get_brige_site_indices surf ∧
        [x; z] ∈ get_brige_site_indices surf ∧
        [y; z] ∈ get_brige_site_indices surf.
Proof.
  intros Hsym Hirr Hrun.
  destruct (get_hollow_site_indices_spec Hrun) as (h & Hh & _ & Hm).
  exists h. split; [done|]. intros t. rewrite Hm. split.
  - intros (a & b & c & Hab & Hac & Hbc & ->).
    apply (elem_of_bridges_run Hrun) in Hab as (? & ? & [= <- <-] & Hlt & Hab).
    assert (Hca : c ≠ a).
    { intros ->. by apply (surface_neighbor_irrefl Hrun a Hirr). }
    assert (Hcb : c ≠ b).
    { intros ->. by apply (surface_neighbor_irrefl Hrun b Hirr). }
    assert (Hadj : ∀ u v, u ∈ [a; b; c] → v ∈ [a; b; c] → u < v →
              [u; v] ∈ get_brige_site_indices surf).
    { pose proof (surface_neighbor_sym Hrun _ _ Hsym Hab).
      pose proof (surface_neighbor_sym Hrun _ _ Hsym Hac).
      pose proof (surface_neighbor_sym Hrun _ _ Hsym Hbc).
      intros u v Hu Hv Huv. apply (elem_of_bridges_run Hrun).
      exists u, v. split_and!; [done..|].
      rewrite !elem_of_cons, elem_of_nil in Hu, Hv.
      destruct Hu as [->|[->|[->|?]]], Hv as [->|[->|[->|?]]];
        try done; lia. }
    destruct (sorted_triple a b c Hlt Hca Hcb) as (x & y & z & -> & Hxy & Hyz & Hp).
    exists x, y, z. split_and!; try done;
      apply Hadj; rewrite <- ?Hp; try lia; set_solver.
  - intros (x & y & z & -> & Hxy & Hyz & Hbxy & Hbxz & Hbyz).
    exists x, y, z. split_and!; [done| | |].
    + by apply (elem_of_bridges_run Hrun) in Hbxz as (? & ? & [= <- <-] & _ & ?).
    + by apply (elem_of_bridges_run Hrun) in Hbyz as (? & ? & [= <- <-] & _ & ?).
    + symmetry. apply sorted_fixed. repeat constructor; lia.
Qed.

Lemma hollow_sites_are_bridge_triangles_witness :
  ∃ h, get_hollow_site_indices [(0, [1; 2]); (1, [0; 2]); (2, [0; 1])] = Some h ∧
    ∀ t, t ∈ h ↔
      ∃ x y z, t = [x; y; z] ∧ x < y ∧ y < z ∧
        [x; y] ∈ get_brige_site_indices [(0, [1; 2]); (1, [0; 2]); (2, [0; 1])] ∧
        [x; z] ∈ get_brige_site_indices [(0, [1; 2]); (1, [0; 2]); (2, [0; 1])] ∧
        [y; z] ∈ get_brige_site_indices [(0, [1; 2]); (1, [0; 2]); (2, [0; 1])].
Proof.
  exact (hollow_sites_are_bridge_triangles _ _ _ _
           triangle_symmetric triangle_irreflexive triangle_partition).
Defined.

(** ** The results do not depend on the order of the neighbour sequences *)

Lemma for_each_ext {A S} (body body' : S → A → option S) l s :
  (∀ s x, x ∈ l → body s x = body' s x) →
  for_each body l s = for_each body' l s.
Proof.
  revert s. induction l as [|x l IH]; intros s H; simpl; [done|].
  rewrite H by left. destruct (body' s x); simpl; [|done].
  apply IH. intros s' y Hy. apply H. by right.
Qed.

Lemma partition_equiv cl (nd nd' : gmap nat (list nat)) surf sub :
  same_up_to_order nd nd' →
  get_surface_neighbors cl nd = Some (surf, sub) →
  ∃ surf' sub',
    get_surface_neighbors cl nd' = Some (surf', sub') ∧
    dict_equiv surf surf' ∧ dict_equiv sub sub'.
Proof.
  intros Hsame (Hk & -> & ->)%get_surface_neighbors_Some.
  eexists _, _. split.
  - apply get_surface_neighbors_Some. split; [|split; reflexivity].
    intros i [l Hl]%Hk. specialize (Hsame i). rewrite Hl in Hsame.
    inversion Hsame. eauto.
  - assert (Hd : ∀ i, default [] (nd !! i) ≡ₚ default [] (nd' !! i)).
    { intros i. by destruct (Hsame i). }
    split; apply Forall2_fmap, Forall_Forall2_diag, Forall_forall;
      intros i _; (split; [done|]); simpl; by rewrite Hd.
Qed.

Lemma bridges_equiv d d' :
  dict_equiv d d' → get_brige_site_indices d = get_brige_site_indices d'.
Proof.
  rewrite !get_brige_site_indices_bind.
  induction 1 as [|[a l] [a' l'] d d' [Ha Hl] _ IH]; [done|].
  simpl in Ha, Hl. subst a'.
  change (bridges_of_entry (a, l) ++ (d ≫= bridges_of_entry)
          = bridges_of_entry (a, l') ++ (d' ≫= bridges_of_entry)).
  rewrite IH. f_equal. unfold bridges_of_entry. simpl.
  by rewrite (sorted_perm_eq l l').
Qed.

Lemma dict_get_equiv d d' k :
  dict_equiv d d' → option_Forall2 (≡ₚ) (dict_get d k) (dict_get d' k).
Proof.
  induction 1 as [|[a l] [a' l'] d d' [Ha Hl] _ IH]; simpl; [constructor|].
  simpl in Ha, Hl. subst a'. case_decide; [by constructor|done].
Qed.

Lemma common_equiv d d' a b :
  dict_equiv d d' →
  get_surface_common_indices d a b = get_surface_common_indices d' a b.
Proof.
  intros He. unfold get_surface_common_indices.
  destruct (dict_get_equiv d d' a He) as [na na' Ha|]; simpl; [|done].
  destruct (dict_get_equiv d d' b He) as [nb nb' Hb|]; simpl; [|done].
  by rewrite (intersect1d_perm na na' nb nb').
Qed.

Lemma hollow_equiv d d' :
  dict_equiv d d' → get_hollow_site_indices d = get_hollow_site_indices d'.
Proof.
  intros He. unfold get_hollow_site_indices. rewrite (bridges_equiv d d' He).
  apply for_each_ext. intros acc [|a [|b [|? ?]]] _; try done.
  by rewrite (common_equiv d d' a b He).
Qed.

Lemma four_fold_step_equiv d d' bs acc other :
  dict_equiv d d' → four_fold_step d bs acc other = four_fold_step d' bs acc other.
Proof.
  intros He. unfold four_fold_step. case_decide; [|done].
  destruct bs as [|a [|b [|? ?]]]; try done.
  destruct other as [|c [|e [|? ?]]]; try done.
  destruct (dict_get_equiv d d' a He) as [na na' Ha|]; simpl; [|done].
  destruct (dict_get_equiv d d' b He) as [nb nb' Hb|]; simpl; [|done].
  by rewrite (intersect1d_perm na na' [c; e] [c; e]),
    (intersect1d_perm nb nb' [c; e] [c; e]).
Qed.

Lemma four_fold_equiv d d' :
  dict_equiv d d' → get_four_fold_hollow_site d = get_four_fold_hollow_site d'.
Proof.
  intros He. unfold get_four_fold_hollow_site. rewrite (bridges_equiv d d' He).
  apply for_each_ext. intros acc [i bs] _.
  apply for_each_ext. intros acc' other _. by apply four_fold_step_equiv.
Qed.

(** X8. The three enumerations depend on each neighbour sequence only up to
    the order of its atoms: two neighbour graphs that differ in that order
    alone give the same bridge, 3-fold and 4-fold results, in the same
    order. *)
Theorem sites_independent_of_neighbor_order
    cl (nd nd' : gmap nat (list nat)) surf sub :
  same_up_to_order nd nd' →
  get_surface_neighbors cl nd = Some (surf, sub) →
  ∃ surf' sub',
    get_surface_neighbors cl nd' = Some (surf', sub') ∧
    get_brige_site_indices surf' = get_brige_site_indices surf ∧
    get_hollow_site_indices surf' = get_hollow_site_indices surf ∧
    get_four_fold_hollow_site surf' = get_four_fold_hollow_site surf.
Proof.
  intros Hsame Hrun.
  destruct (partition_equiv cl nd nd' surf sub Hsame Hrun)
    as (surf' & sub' & Hrun' & He & _).
  exists surf', sub'. split_and!; [done|..]; symmetry.
  - by apply bridges_equiv.
  - by apply hollow_equiv.
  - by apply four_fold_equiv.
Qed.

Lemma square_reversed_same :
  same_up_to_order square_neighbors square_neighbors_reversed.
Proof.
  intros i. unfold square_neighbors, square_neighbors_reversed. simpl.
  destruct i as [|[|[|[|i]]]];
    [constructor; apply perm_swap ..|].
  rewrite !lookup_insert_ne by lia. rewrite !lookup_empty. constructor.
Qed.

Lemma sites_independent_of_neighbor_order_witness :
  ∃ surf' sub',
    get_surface_neighbors square_coordination square_neighbors_reversed
      = Some (surf', sub') ∧
    get_brige_site_indices surf' = [[0; 1]; [0; 3]; [1; 2]; [2; 3]] ∧
    get_hollow_site_indices surf' = Some [] ∧
    get_four_fold_hollow_site surf' = Some [[0; 1; 2; 3]].
Proof.
  exact (sites_independent_of_neighbor_order _ _ _ _ _
           square_reversed_same square_partition).
Defined.

(** ** When the enumerations raise on an arbitrary dictionary *)

Lemma for_each_None {A S} (body : S → A → option S) (bad : A → Prop) l :
  (∀ s x, x ∈ l → body s x = None ↔ bad x) →
  ∀ s, for_each body l s = None ↔ ∃ x, x ∈ l ∧ bad x.
Proof.
  induction l as [|x l IH]; intros Hbody s; simpl.
  - split; [done|]. by intros (x & ?%not_elem_of_nil & _).
  - destruct (body s x) as [s'|] eqn:E; simpl.
    + rewrite IH by (intros s0 y Hy; apply Hbody; by right). split.
      * intros (y & Hy & Hbad). exists y. split; [by right|done].
      * intros (y & [->|Hy]%elem_of_cons & Hbad); [|eauto].
        assert (body s x = None) by (apply Hbody; [left|done]). congruence.
    + split; [|done]. intros _. exists x. split; [left|].
      apply (Hbody s); [left|done].
Qed.

Lemma bridge_first_is_key d a b :
  [a; b] ∈ get_brige_site_indices d → a ∈ keys d.
Proof.
  rewrite get_brige_site_indices_bind.
  intros ([a' l] & (b' & [= -> ->] & _)%elem_of_bridges_of_entry & Hin)%list_elem_of_bind.
  by apply (list_elem_of_fmap_2 fst _ (a', l)).
Qed.

Lemma bridge_shape d s :
  s ∈ get_brige_site_indices d → ∃ a b, s = [a; b] ∧ a < b.
Proof.
  rewrite get_brige_site_indices_bind.
  intros ([a l] & (b & -> & Hlt & _)%elem_of_bridges_of_entry & _)%list_elem_of_bind.
  eauto.
Qed.

(** X9. Whatever dictionary the global [surface_neighbors_dict] holds,
    [get_hollow_site_indices] raises exactly when the second atom of some
    bridge pair is not a key of the dictionary. *)
Theorem hollow_raises_iff d :
  get_hollow_site_indices d = None ↔
  ∃ a b, [a; b] ∈ get_brige_site_indices d ∧ b ∉ keys d.
Proof.
  unfold get_hollow_site_indices.
  rewrite (for_each_None _ (λ s, ∃ a b, s = [a; b] ∧ b ∉ keys d)).
  - split.
    + intros (s & Hs & a & b & -> & Hb). eauto.
    + intros (a & b & Hs & Hb). exists [a; b]. eauto.
  - intros acc s Hs. pose proof Hs as (a & b & -> & _)%bridge_shape.
    pose proof (bridge_first_is_key d a b Hs) as Ha.
    pose proof (common_indices_None d a b) as Hnone.
    destruct (get_surface_common_indices d a b) as [r|]; simpl; split.
    + done.
    + intros (? & ? & [= <- <-] & Hb).
      exfalso. by pose proof (proj2 Hnone (or_intror Hb)).
    + intros _. exists a, b. split; [done|].
      by destruct (proj1 Hnone eq_refl).
    + done.
Qed.

Example hollow_raises_on_stale_dict : get_hollow_site_indices [(0, [1])] = None.
Proof. reflexivity. Qed.

Lemma four_fold_step_None d a b c e acc :
  a ∈ keys d →
  four_fold_step d [a; b] acc [c; e] = None ↔
  share_no_atom [a; b] [c; e] ∧ b ∉ keys d.
Proof.
  intros [na Hna]%dict_get_is_key. unfold four_fold_step.
  pose proof (intersect1d_empty [a; b] [c; e]) as Hdisj.
  fold (share_no_atom [a; b] [c; e]) in Hdisj.
  rewrite Hna. simpl. rewrite <- dict_get_is_key.
  case_decide as H0.
  - destruct (dict_get d b) as [nb|]; simpl.
    + split; [|intros [_ H]; exfalso; apply H; eauto].
      repeat case_decide; done.
    + split; [|done]. intros _. split; [tauto|]. by intros [? ?].
  - split; [done|]. tauto.
Qed.

(** X10. Whatever dictionary the global [surface_neighbors_dict] holds,
    [get_four_fold_hollow_site] raises exactly when some bridge pair whose
    second atom is not a key of the dictionary is followed, later in the
    bridge list, by a bridge pair that shares no atom with it. *)
Theorem four_fold_raises_iff d :
  get_four_fold_hollow_site d = None ↔
  ∃ i j a b c e,
    i < j ∧
    get_brige_site_indices d !! i = Some [a; b] ∧
    get_brige_site_indices d !! j = Some [c; e] ∧
    share_no_atom [a; b] [c; e] ∧ b ∉ keys d.
Proof.
  unfold get_four_fold_hollow_site.
  set (bridges := get_brige_site_indices d).
  rewrite (for_each_None _
    (λ '(i, bs), ∃ j a b c e,
       i < j ∧ bs = [a; b] ∧ bridges !! j = Some [c; e] ∧
       share_no_atom [a; b] [c; e] ∧ b ∉ keys d)).
  - split.
    + intros ([i bs] & Hi%elem_of_enumerate & j & a & b & c & e & ? & -> & ?).
      exists i, j, a, b, c, e. done.
    + intros (i & j & a & b & c & e & ? & Hi & ?). exists (i, [a; b]).
      split; [by apply elem_of_enumerate|]. exists j, a, b, c, e. done.
  - intros acc [i bs] Hi%elem_of_enumerate.
    apply list_elem_of_lookup_2 in Hi.
    pose proof Hi as (a & b & -> & _)%bridge_shape.
    pose proof (bridge_first_is_key d a b Hi) as Ha.
    rewrite (for_each_None _
      (λ other, ∃ c e, other = [c; e] ∧ share_no_atom [a; b] [c; e] ∧ b ∉ keys d)).
    + split.
      * intros (other & (j & Hlt & Hj)%elem_of_drop_S & c & e & -> & ? & ?).
        exists j, a, b, c, e. done.
      * intros (j & ? & ? & c & e & Hlt & [= <- <-] & Hj & ? & ?).
        exists [c; e]. split; [apply elem_of_drop_S; eauto|]. eauto.
    + intros acc' other (j & _ & Hj)%elem_of_drop_S.
      apply list_elem_of_lookup_2 in Hj.
      pose proof Hj as (c & e & -> & _)%bridge_shape.
      rewrite (four_fold_step_None d a b c e acc' Ha). split.
      * intros [? ?]. eauto.
      * intros (? & ? & [= <- <-] & ? & ?). done.
Qed.

Example four_fold_raises_on_stale_dict :
  get_four_fold_hollow_site [(0, [1]); (2, [3]); (3, [2])] = None.
Proof. reflexivity. Qed.

(** ** Placing adsorbates *)

Section decoration_properties.
Context {P : Type} (origin : P) (translate : P → P → P) (average : list P → P).

Lemma positions_length (system : list (atom P)) :
  length (positions system) = length system.
Proof. apply length_fmap. Qed.

Lemma take_rows_None (ps : list P) site :
  take_rows ps site = None ↔ ∃ i, i ∈ site ∧ length ps ≤ i.
Proof.
  unfold take_rows. rewrite mapM_None, Exists_exists.
  by setoid_rewrite lookup_ge_None.
Qed.

Lemma take_rows_app (ps extra : list P) site :
  Forall (λ i, i < length ps) site →
  take_rows (ps ++ extra) site = take_rows ps site.
Proof.
  unfold take_rows. induction 1 as [|i site Hi _ IH]; [done|].
  cbn [mapM]. by rewrite IH, lookup_app_l.
Qed.

Lemma take_rows_in_range (ps : list P) site :
  Forall (λ i, i < length ps) site → is_Some (take_rows ps site).
Proof.
  intros Hall. destruct (take_rows ps site) as [r|] eqn:E; [eauto|].
  apply take_rows_None in E as (i & Hi & Hge).
  eapply Forall_forall in Hall; [|done]. lia.
Qed.

Lemma place_adsorbate_app (system added : list (atom P)) site r :
  Forall (λ i, i < length system) site →
  take_rows (positions system) site = Some r →
  place_adsorbate origin translate average (system ++ added) site
  = Some ((system ++ added) ++ [adsorbate_at origin translate average r]).
Proof.
  intros Hsite Hr. unfold place_adsorbate, positions. rewrite fmap_app.
  fold (positions system). rewrite take_rows_app, Hr; [done|].
  by rewrite positions_length.
Qed.

Lemma place_adsorbate_None (system : list (atom P)) site :
  place_adsorbate origin translate average system site = None ↔
  ∃ i, i ∈ site ∧ length system ≤ i.
Proof.
  unfold place_adsorbate. rewrite <- (positions_length system), <- take_rows_None.
  by destruct (take_rows (positions system) site).
Qed.

Lemma place_adsorbate_length (system system' : list (atom P)) site :
  place_adsorbate origin translate average system site = Some system' →
  length system' = S (length system).
Proof.
  unfold place_adsorbate.
  destruct (take_rows (positions system) site); [|done].
  intros [= <-]. rewrite length_app. simpl. lia.
Qed.

Lemma decorate_appends_from (system added : list (atom P)) sites :
  Forall (Forall (λ i, i < length system)) sites →
  ∃ rows,
    Forall2 (λ site r, take_rows (positions system) site = Some r) sites rows ∧
    decorate origin translate average sites (system ++ added)
    = Some (system ++ added ++ (adsorbate_at origin translate average <$> rows)).
Proof.
  intros Hall. revert added.
  induction Hall as [|site sites Hsite _ IH]; intros added.
  - exists []. split; [constructor|]. simpl. by rewrite app_nil_r.
  - destruct (take_rows_in_range (positions system) site) as [r Hr].
    { by rewrite positions_length. }
    destruct (IH (added ++ [adsorbate_at origin translate average r]))
      as (rows & Hrows & Hdec).
    exists (r :: rows). split; [by constructor|].
    unfold decorate in *. cbn [for_each].
    rewrite (place_adsorbate_app system added site r Hsite Hr). simpl.
    rewrite <- !app_assoc in *. exact Hdec.
Qed.

Lemma decorate_None_from (system : list (atom P)) sites :
  decorate origin translate average sites system = None ↔
  ∃ k site i, sites !! k = Some site ∧ i ∈ site ∧ length system + k ≤ i.
Proof.
  revert system. induction sites as [|site sites IH]; intros system.
  - split; [done|]. by intros (k & ? & ? & ? & _).
  - unfold decorate in *. cbn [for_each].
    pose proof (place_adsorbate_None system site) as Hnone.
    destruct (place_adsorbate origin translate average system site)
      as [system'|] eqn:E; simpl.
    + rewrite IH, (place_adsorbate_length _ _ _ E). split.
      * intros (k & s & i & Hk & Hi & Hge). exists (S k), s, i.
        split_and!; [done..|lia].
      * intros ([|k] & s & i & Hk & Hi & Hge); simpl in Hk.
        -- injection Hk as <-. exfalso.
           assert (@None (list (atom P)) = Some system'); [|done].
           symmetry. apply Hnone. exists i. split; [done|lia].
        -- exists k, s, i. split_and!; [done..|lia].
    + split; [|done]. intros _.
      destruct (proj1 Hnone eq_refl) as (i & Hi & Hge).
      exists 0, site, i. split_and!; [done..|lia].
Qed.
End decoration_properties.

(** X11. If every index of every site is below the number of atoms of the
    structure, the decoration loop does not raise and returns the structure
    followed by one O atom per site, in the order of the sites; although the
    loop reads the positions of the structure as grown so far, each O atom
    sits at the mean of positions of the structure it started from. *)
Theorem decorate_appends {P : Type} (origin : P) (translate : P → P → P)
    (average : list P → P) (system : list (atom P)) (sites : list site) :
  Forall (Forall (λ i, i < length system)) sites →
  ∃ rows,
    Forall2 (λ site r, take_rows (positions system) site = Some r) sites rows ∧
    decorate origin translate average sites system
    = Some (system ++ (adsorbate_at origin translate average <$> rows)).
Proof.
  intros Hall.
  destruct (decorate_appends_from origin translate average system [] sites Hall)
    as (rows & Hrows & Hdec).
  exists rows. split; [done|]. by rewrite app_nil_r in Hdec.
Qed.

Lemma decorate_appends_witness :
  ∃ rows,
    Forall2 (λ site r, take_rows (positions line_square) site = Some r)
      [[0; 1; 2; 3]; [1; 2]] rows ∧
    decorate 0%Z Z.add line_mean [[0; 1; 2; 3]; [1; 2]] line_square
    = Some (line_square ++ (adsorbate_at 0%Z Z.add line_mean <$> rows)).
Proof.
  apply (decorate_appends 0%Z Z.add line_mean line_square).
  repeat constructor; simpl; lia.
Defined.

Example decorate_line_square :
  decorate 0%Z Z.add line_mean [[0; 1; 2; 3]; [1; 2]] line_square
  = Some (line_square ++ [Atom "O" 15%Z; Atom "O" 15%Z]).
Proof. reflexivity. Qed.

(** X12. The decoration loop raises exactly when some site holds an index
    that is not below the number of atoms the structure has when that site
    is reached, which is the initial number plus the number of sites
    handled before it. *)
Theorem decorate_raises_iff {P : Type} (origin : P) (translate : P → P → P)
    (average : list P → P) (system : list (atom P)) (sites : list site) :
  decorate origin translate average sites system = None ↔
  ∃ k site i, sites !! k = Some site ∧ i ∈ site ∧ length system + k ≤ i.
Proof. apply decorate_None_from. Qed.

(** An index that is out of range for the initial structure is accepted
    once earlier sites have added enough atoms: it then reads the position
    of an adsorbate. *)
Example decorate_reads_adsorbate :
  decorate 0%Z Z.add line_mean [[0; 1]; [4]] line_square
  = Some (line_square ++ [Atom "O" 5%Z; Atom "O" 5%Z]) ∧
  decorate 0%Z Z.add line_mean [[4]; [0; 1]] line_square = None.
Proof. split; reflexivity. Qed.

Section decoration_pipeline.
Context {coordination_list : list Z} {neighbor_dict : gmap nat (list nat)}.
Context {surf sub : dict}.
Hypothesis Hrun :
  get_surface_neighbors coordination_list neighbor_dict = Some (surf, sub).

Lemma surface_neighbor_in_range a b :
  surface_neighbor surf a b →
  a < length coordination_list ∧ b < length coordination_list.
Proof.
  intros ((ca & Ha & _) & (cb & Hb & _) & _)%(surface_neighbor_iff Hrun).
  split; by eapply lookup_lt_Some.
Qed.

Lemma bridge_in_range a b :
  [a; b] ∈ get_brige_site_indices surf →
  a < length coordination_list ∧ b < length coordination_list.
Proof.
  intros (? & ? & [= <- <-] & _ & Hab)%(elem_of_bridges_run Hrun).
  by apply surface_neighbor_in_range.
Qed.

Lemma sites_in_range :
  ∃ h f,
    get_hollow_site_indices surf = Some h ∧
    get_four_fold_hollow_site surf = Some f ∧
    Forall (Forall (λ i, i < length coordination_list)) h ∧
    Forall (Forall (λ i, i < length coordination_list)) f.
Proof.
  destruct (get_hollow_site_indices_spec Hrun) as (h & Hh & _ & Hmh).
  destruct (get_four_fold_hollow_site_spec Hrun) as (f & Hf & _ & Hmf).
  exists h, f. split_and!; [done..| |]; apply Forall_forall.
  - intros t (a & b & c & [Ha Hb]%bridge_in_range &
      [_ Hc]%surface_neighbor_in_range & _ & ->)%Hmh.
    apply Forall_forall. intros i. rewrite elem_of_sorted.
    rewrite !elem_of_cons, elem_of_nil. intros [->|[->|[->|?]]]; done.
  - intros t (i & j & a & b & c & d & _ & Hi & Hj & _ & _ & ->)%Hmf.
    apply list_elem_of_lookup_2, bridge_in_range in Hi as [Ha Hb].
    apply list_elem_of_lookup_2, bridge_in_range in Hj as [Hc Hd].
    apply Forall_forall. intros k. rewrite elem_of_sorted.
    rewrite !elem_of_cons, elem_of_nil. intros [->|[->|[->|[->|?]]]]; done.
Qed.
End decoration_pipeline.

(** X13. When the structure has at least as many atoms as the coordination
    list has entries, decorating it with the 3-fold sites or with the 4-fold
    sites of the partition never raises, and the result is the structure
    followed by exactly one O atom per site. *)
Theorem decorate_found_sites {P : Type} (origin : P) (translate : P → P → P)
    (average : list P → P) cl (nd : gmap nat (list nat)) surf sub
    (system : list (atom P)) :
  get_surface_neighbors cl nd = Some (surf, sub) →
  length cl ≤ length system →
  ∃ h f rows_h rows_f,
    get_hollow_site_indices surf = Some h ∧
    get_four_fold_hollow_site surf = Some f ∧
    length rows_h = length h ∧ length rows_f = length f ∧
    decorate_hollow origin translate average surf system
    = Some (system ++ (adsorbate_at origin translate average <$> rows_h)) ∧
    decorate_four_fold_hollow origin translate average surf system
    = Some (system ++ (adsorbate_at origin translate average <$> rows_f)).
Proof.
  intros Hrun Hlen.
  destruct (sites_in_range Hrun) as (h & f & Hh & Hf & Hhr & Hfr).
  assert (Hweak : ∀ sites,
    Forall (Forall (λ i, i < length cl)) sites →
    Forall (Forall (λ i, i < length system)) sites).
  { intros sites Hs. eapply Forall_impl; [exact Hs|]. intros t Ht.
    eapply Forall_impl; [exact Ht|]. simpl. intros i Hi. lia. }
  destruct (decorate_appends_from origin translate average system [] h (Hweak _ Hhr))
    as (rows_h & Hrh & Hdh).
  destruct (decorate_appends_from origin translate average system [] f (Hweak _ Hfr))
    as (rows_f & Hrf & Hdf).
  exists h, f, rows_h, rows_f. rewrite app_nil_r in Hdh, Hdf.
  unfold decorate_hollow, decorate_four_fold_hollow. rewrite Hh, Hf. simpl.
  split_and!; try done; symmetry; by eapply Forall2_length.
Qed.

Lemma decorate_found_sites_witness :
  ∃ h f rows_h rows_f,
    get_hollow_site_indices [(0, [1; 3]); (1, [0; 2]); (2, [1; 3]); (3, [0; 2])]
      = Some h ∧
    get_four_fold_hollow_site
      [(0, [1; 3]); (1, [0; 2]); (2, [1; 3]); (3, [0; 2])] = Some f ∧
    length rows_h = length h ∧ length rows_f = length f ∧
    decorate_hollow 0%Z Z.add line_mean
      [(0, [1; 3]); (1, [0; 2]); (2, [1; 3]); (3, [0; 2])] line_square
    = Some (line_square ++ (adsorbate_at 0%Z Z.add line_mean <$> rows_h)) ∧
    decorate_four_fold_hollow 0%Z Z.add line_mean
      [(0, [1; 3]); (1, [0; 2]); (2, [1; 3]); (3, [0; 2])] line_square
    = Some (line_square ++ (adsorbate_at 0%Z Z.add line_mean <$> rows_f)).
Proof.
  apply (decorate_found_sites 0%Z Z.add line_mean _ _ _ _ line_square
           square_partition).
  simpl. lia.
Defined.

(** ** What the partition does not look at *)

(** X14. [get_surface_neighbors] reads the neighbour graph only at the
    surface atoms: two graphs that agree on every atom whose coordination
    number is below 12 give the same outcome, be it the same pair of
    dictionaries or an exception in both cases. *)
Theorem partition_ignores_bulk_entries cl (nd nd' : gmap nat (list nat)) :
  (∀ i c, cl !! i = Some c → (c < 12)%Z → nd !! i = nd' !! i) →
  get_surface_neighbors cl nd = get_surface_neighbors cl nd'.
Proof.
  intros Hagree.
  assert (Hag : ∀ i, i ∈ where_lt_12 cl → nd !! i = nd' !! i).
  { intros i (c & Hc & Hlt)%elem_of_where_lt_12. by eapply Hagree. }
  destruct (get_surface_neighbors cl nd) as [[surf sub]|] eqn:E.
  - symmetry. apply get_surface_neighbors_Some in E as (Hk & -> & ->).
    apply get_surface_neighbors_Some. split_and!.
    + intros i Hi. rewrite <- Hag by done. by apply Hk.
    + apply list_fmap_ext. intros _ i Hi%list_elem_of_lookup_2.
      by rewrite Hag.
    + apply list_fmap_ext. intros _ i Hi%list_elem_of_lookup_2.
      by rewrite Hag.
  - destruct (get_surface_neighbors cl nd') as [[surf sub]|] eqn:E'; [|done].
    apply get_surface_neighbors_Some in E' as (Hk & _ & _).
    assert (Hs : is_Some (get_surface_neighbors cl nd)).
    { apply get_surface_neighbors_total. intros i Hi%elem_of_where_lt_12.
      rewrite Hag by done. by apply Hk. }
    rewrite E in Hs. by destruct Hs.
Qed.

Lemma partition_ignores_bulk_entries_witness :
  get_surface_neighbors [12; 2; 2]%Z (list_to_map [(1, [2]); (2, [1])])
  = get_surface_neighbors [12; 2; 2]%Z
      (list_to_map [(0, [1; 2]); (1, [2]); (2, [1])]).
Proof.
  apply partition_ignores_bulk_entries.
  intros [|[|[|i]]] c Hc Hlt; simpl in Hc; try done.
  injection Hc as <-. lia.
Defined.

(** ** How often a bridge pair is emitted *)

Lemma occurrences_app s (l1 l2 : list site) :
  occurrences s (l1 ++ l2) = occurrences s l1 + occurrences s l2.
Proof. unfold occurrences. by rewrite filter_app, length_app. Qed.

Lemma occurrences_entry a b l :
  a < b →
  occurrences [a; b] (bridges_of_entry (a, l)) = length (filter (λ x, x = b) l).
Proof.
  intros Hlt. unfold bridges_of_entry, occurrences. simpl.
  rewrite <- (Permutation_length (filter_Permutation (λ x, x = b) _ _ (sorted_perm l))).
  induction (sorted l) as [|x k IH]; [done|].
  rewrite !filter_cons. destruct (decide (x = b)) as [->|Hne].
  - rewrite decide_True by done. cbn [fmap list_fmap].
    rewrite filter_cons_True by done. simpl. by rewrite IH.
  - case_decide; [|done]. cbn [fmap list_fmap].
    rewrite filter_cons_False by congruence. done.
Qed.

Lemma occurrences_bridges d a b l :
  NoDup (keys d) → dict_get d a = Some l → a < b →
  occurrences [a; b] (get_brige_site_indices d) = length (filter (λ x, x = b) l).
Proof.
  rewrite get_brige_site_indices_bind. unfold keys.
  induction d as [|[a' l'] d IH]; intros Hk Hl Hlt; [done|].
  apply NoDup_cons in Hk as [Ha' Hk]. simpl in Hl, Ha'.
  change (((a', l') :: d) ≫= bridges_of_entry)
    with (bridges_of_entry (a', l') ++ (d ≫= bridges_of_entry)).
  rewrite occurrences_app. case_decide as Ha.
  - subst a'. injection Hl as ->. rewrite occurrences_entry by done.
    rewrite (occurrences_absent _ (d ≫= _)); [lia|].
    intros ([a2 l2] & (b2 & [= <- <-] & _)%elem_of_bridges_of_entry & Hin)%list_elem_of_bind.
    apply Ha'. by apply (list_elem_of_fmap_2 fst _ (a, l2)).
  - rewrite IH by done. rewrite occurrences_absent; [done|].
    intros (b2 & [= <- <-] & _)%elem_of_bridges_of_entry. done.
Qed.

(** X15. The bridge enumeration emits the pair [[a; b]], for a surface atom
    [a] and [a < b], as many times as [b] occurs in the list of surface
    neighbours of [a]. *)
Theorem bridge_pair_multiplicity cl (nd : gmap nat (list nat)) surf sub a b l :
  get_surface_neighbors cl nd = Some (surf, sub) →
  dict_get surf a = Some l → a < b →
  occurrences [a; b] (get_brige_site_indices surf)
  = length (filter (λ x, x = b) l).
Proof.
  intros Hrun Hl Hlt. apply occurrences_bridges; [|done..].
  apply (surf_keys_NoDup Hrun).
Qed.

Lemma bridge_pair_multiplicity_witness :
  occurrences [0; 1] (get_brige_site_indices [(0, [1; 1]); (1, [0; 0])]) = 2.
Proof.
  apply (bridge_pair_multiplicity _ _ _ _ 0 1 [1; 1] repeated_partition);
    [done|lia].
Defined.

(** ** 3-fold and 4-fold sites do not overlap *)

Lemma hollow_triple_adjacent cl (nd : gmap nat (list nat)) surf sub h t :
  symmetric nd → irreflexive nd →
  get_surface_neighbors cl nd = Some (surf, sub) →
  get_hollow_site_indices surf = Some h → t ∈ h →
  ∃ x y z, t ≡ₚ [x; y; z] ∧ x ≠ y ∧ x ≠ z ∧ y ≠ z ∧
    surface_neighbor surf x y ∧ surface_neighbor surf x z ∧
    surface_neighbor surf y z.
Proof.
  intros Hsym Hirr Hrun Hh Ht.
  destruct (get_hollow_site_indices_spec Hrun) as (h' & Hh' & _ & Hm).
  assert (h' = h) as -> by congruence.
  apply Hm in Ht as (a & b & c & Hab & Hac & Hbc & ->).
  apply (elem_of_bridges_run Hrun) in Hab as (? & ? & [= <- <-] & Hlt & Hab).
  exists a, b, c. split_and!; try done; try lia.
  - apply sorted_perm.
  - intros ->. by apply (surface_neighbor_irrefl Hrun c Hirr).
  - intros ->. by apply (surface_neighbor_irrefl Hrun c Hirr).
Qed.

(** X16. For a symmetric neighbour graph without self-neighbours, no 3-fold
    site lies inside a 4-fold site: every emitted triple has an atom that
    the emitted quadruple does not have. *)
Theorem hollow_site_not_inside_four_fold cl (nd : gmap nat (list nat)) surf sub :
  symmetric nd → irreflexive nd →
  get_surface_neighbors cl nd = Some (surf, sub) →
  ∃ h f,
    get_hollow_site_indices surf = Some h ∧
    get_four_fold_hollow_site surf = Some f ∧
    ∀ t q, t ∈ h → q ∈ f → ∃ i, i ∈ t ∧ i ∉ q.
Proof.
  intros Hsym Hirr Hrun.
  destruct (get_hollow_site_indices_spec Hrun) as (h & Hh & _ & _).
  destruct (get_four_fold_hollow_site_spec Hrun) as (f & Hf & _ & Hmf).
  exists h, f. split_and!; [done..|]. intros t q Ht Hq.
  destruct (hollow_triple_adjacent cl nd surf sub h t Hsym Hirr Hrun Hh Ht)
    as (x & y & z & Ht' & Hxy & Hxz & Hyz & Sxy & Sxz & Syz).
  apply Hmf in Hq as (i & j & a & b & c & d & _ & Hi & Hj & Hdis & Hacc & ->).
  apply list_elem_of_lookup_2 in Hi, Hj.
  destruct (accepted_is_square Hrun Hsym a b c d Hi Hj Hdis Hacc)
    as (p & q & r & s & Hsq & Hperm).
  destruct Hsq as (Hnd & _ & _ & _ & _ & Hpr & Hrp & Hqs & Hsq).
  assert (Hin : ∀ w, w ∈ sorted [a; b; c; d] ↔ w = p ∨ w = q ∨ w = r ∨ w = s).
  { intros w. rewrite elem_of_sorted, Hperm, !elem_of_cons, elem_of_nil. tauto. }
  destruct (decide (x ∈ sorted [a; b; c; d])) as [Hx|Hx];
    [|exists x; split; [rewrite Ht'; left|done]].
  destruct (decide (y ∈ sorted [a; b; c; d])) as [Hy|Hy];
    [|exists y; split; [rewrite Ht'; right; left|done]].
  destruct (decide (z ∈ sorted [a; b; c; d])) as [Hz|Hz];
    [|exists z; split; [rewrite Ht'; right; right; left|done]].
  exfalso.
  pose proof (surface_neighbor_sym Hrun _ _ Hsym Sxy).
  pose proof (surface_neighbor_sym Hrun _ _ Hsym Sxz).
  pose proof (surface_neighbor_sym Hrun _ _ Hsym Syz).
  apply Hin in Hx, Hy, Hz.
  destruct Hx as [->|[->|[-> | ->]]], Hy as [->|[->|[-> | ->]]],
    Hz as [->|[->|[-> | ->]]]; done.
Qed.

Example pyramid_partition :
  get_surface_neighbors pyramid_coordination pyramid_neighbors
  = Some ([(0, [1; 3; 4]); (1, [0; 2; 4]); (2, [1; 3; 4]); (3, [0; 2; 4]);
           (4, [0; 1; 2; 3])],
          [(0, []); (1, []); (2, []); (3, []); (4, [])]).
Proof. vm_compute. reflexivity. Qed.

Example pyramid_sites :
  get_hollow_site_indices
    [(0, [1; 3; 4]); (1, [0; 2; 4]); (2, [1; 3; 4]); (3, [0; 2; 4]);
     (4, [0; 1; 2; 3])]
  = Some [[0; 1; 4]; [0; 3; 4]; [1; 2; 4]; [2; 3; 4]] ∧
  get_four_fold_hollow_site
    [(0, [1; 3; 4]); (1, [0; 2; 4]); (2, [1; 3; 4]); (3, [0; 2; 4]);
     (4, [0; 1; 2; 3])]
  = Some [[0; 1; 2; 3]].
Proof. split; vm_compute; reflexivity. Qed.

Lemma pyramid_symmetric : symmetric pyramid_neighbors.
Proof.
  intros a b la Ha Hb. unfold pyramid_neighbors in Ha. simpl in Ha.
  graph_cases Ha; list_cases Hb;
    (eexists; split; [vm_compute; reflexivity|]; repeat constructor).
Qed.

Lemma pyramid_irreflexive : irreflexive pyramid_neighbors.
Proof.
  intros a la Ha Hin. unfold pyramid_neighbors in Ha. simpl in Ha.
  graph_cases Ha;
    repeat (apply elem_of_cons in Hin as [Hin|Hin]; [discriminate Hin|]);
    by apply not_elem_of_nil in Hin.
Qed.

Lemma hollow_site_not_inside_four_fold_witness :
  ∃ h f,
    get_hollow_site_indices
      [(0, [1; 3; 4]); (1, [0; 2; 4]); (2, [1; 3; 4]); (3, [0; 2; 4]);
       (4, [0; 1; 2; 3])] = Some h ∧
    get_four_fold_hollow_site
      [(0, [1; 3; 4]); (1, [0; 2; 4]); (2, [1; 3; 4]); (3, [0; 2; 4]);
       (4, [0; 1; 2; 3])] = Some f ∧
    ∀ t q, t ∈ h → q ∈ f → ∃ i, i ∈ t ∧ i ∉ q.
Proof.
  exact (hollow_site_not_inside_four_fold _ _ _ _
           pyramid_symmetric pyramid_irreflexive pyramid_partition).
Defined.
